(** * keppy: radial velocities of a Keplerian orbit (orbit.py)

    A shallow embedding of [orbit.py] and the properties of its pipeline
    (mean anomaly, eccentric anomaly, true anomaly, radial velocity,
    periodic resampling).

    Conventions of the embedding.

    - A Python float is a real number ([R]); rounding is not modelled.
    - An element of a NumPy array is a [float64]: [Some x] for a finite
      value, [None] for a non-finite one.  NumPy's element-wise division
      does not raise on a zero divisor, it yields [inf] or [nan]; every
      such value of this program is fed to [arccos], whose result is [nan]
      for all of them, and [nan] propagates through the arithmetic that
      follows.
    - A division of two Python scalars raises [ZeroDivisionError] on a zero
      divisor.
    - [NT] and [N] are numbers of samples ([nat]).
    - The file is Python 2 code: on integers [/] is the floor division, so
      [(NT-1)/2] is an integer and can be used as a slice bound, as line 58
      does and as the example's [NT = 1000] needs.
    - [scipy.optimize.newton] is not part of the repository: the solver is
      a parameter of the development, a function that either returns a
      root estimate or raises.
    - [numpy.linspace] and [numpy.interp] are modelled after NumPy's
      implementation, in exact arithmetic. *)

From Stdlib Require Import Reals Lra Lia List ZArith Bool Permutation Sorted.
From Stdlib Require Import Zfloor.
Import ListNotations.
Local Open Scope R_scope.

(** ** Exceptions and results *)

Inductive exn : Type :=
| ZeroDivisionError
| ValueError
| RuntimeError (value : R).

Inductive result (A : Type) : Type :=
| Ok (a : A)
| Raise (e : exn).
Arguments Ok {A} a.
Arguments Raise {A} e.

Definition bind {A B : Type} (c : result A) (k : A -> result B) : result B :=
  match c with
  | Ok a => k a
  | Raise e => Raise e
  end.

Notation "x <- c ;; k" := (bind c (fun x => k))
  (at level 61, c at next level, right associativity).

(** A list comprehension whose body may raise: elements are evaluated from
    left to right and the first exception ends the evaluation. *)
Fixpoint comprehension {A B : Type} (body : A -> result B) (l : list A)
  : result (list B) :=
  match l with
  | [] => Ok []
  | a :: l' =>
      b <- body a ;;
      bs <- comprehension body l' ;;
      Ok (b :: bs)
  end.

(** ** Array elements *)

Definition float64 : Type := option R.

Definition np_div (x y : R) : float64 :=
  if Req_dec_T y 0 then None else Some (x / y).

Definition np_arccos (x : R) : float64 :=
  if Rle_dec (-1) x then
    if Rle_dec x 1 then Some (acos x) else None
  else None.

Definition fbind (x : float64) (k : R -> float64) : float64 :=
  match x with
  | Some v => k v
  | None => None
  end.

Definition np_sqrt (x : R) : float64 :=
  if Rle_dec 0 x then Some (sqrt x) else None.

(** ** The equations of the orbit *)

(** [K]: Eq. 66.  The quotient [m2/(m1+m2)] is a division of Python
    scalars; [np.sin] and [np.sqrt] return NumPy scalars, so the last
    division yields a non-finite value on a zero divisor. *)
Definition K (m1 m2 n a I e : R) : result float64 :=
  if Req_dec_T (m1 + m2) 0 then Raise ZeroDivisionError
  else
    Ok (fbind (np_sqrt (1 - e ^ 2)) (fun d =>
        np_div (m2 / (m1 + m2) * n * a * sin I) d)).

(** [vr]: Eq. 65.  [w *= np.pi/180.] rebinds the local name [w]. *)
Definition vr (VZ K w f e : R) : R :=
  let w := w * (PI / 180) in
  VZ + K * (cos (w + f) + e * cos w).

(** [kepler]: Eq. 41. *)
Definition kepler (E e M : R) : R :=
  E - e * sin E - M.

(** ** numpy.linspace *)

Definition set_last (l : list R) (v : R) : list R :=
  match l with
  | [] => []
  | _ => removelast l ++ [v]
  end.

Definition linspace (start stop : R) (num : nat) : list R :=
  let div := (num - 1)%nat in
  let y := map INR (seq 0 num) in
  let delta := stop - start in
  let y :=
    if (1 <? num)%nat
    then let step := delta / INR div in map (fun yi => yi * step) y
    else map (fun yi => yi * delta) y in
  let y := map (fun yi => yi + start) y in
  if (1 <? num)%nat then set_last y stop else y.

(** ** numpy.interp with a period *)

(** [%] on floats: the remainder has the sign of the divisor. *)
Definition np_mod (x p : R) : R :=
  x - IZR (Zfloor (x / p)) * p.

(** [numpy.argsort]: the indices that sort the array (insertion sort,
    ties in index order). *)
Fixpoint insert_index (key : nat -> R) (i : nat) (l : list nat) : list nat :=
  match l with
  | [] => [i]
  | j :: l' =>
      if Rle_dec (key i) (key j) then i :: l else j :: insert_index key i l'
  end.

Definition argsort (a : list R) : list nat :=
  fold_right (insert_index (fun i => nth i a 0)) [] (seq 0 (length a)).

(** [a[idx]] for an array of indices. *)
Definition take {A : Type} (a : list A) (d : A) (idx : list nat) : list A :=
  map (fun i => nth i a d) idx.

(** [a[-1:]] and [a[0:1]]. *)
Definition last1 {A : Type} (a : list A) : list A :=
  skipn (length a - 1) a.

Definition first1 {A : Type} (a : list A) : list A :=
  firstn 1 a.

(** The binary search of the compiled routine returns, on a sorted array,
    the index of the last sample that is [<= key]; [search] counts the
    leading samples that are [<= key], which is one more. *)
Fixpoint search (key : R) (arr : list R) : nat :=
  match arr with
  | [] => 0%nat
  | v :: arr' => if Rle_dec v key then S (search key arr') else 0%nat
  end.

Definition lerp (x x0 x1 : R) (y0 y1 : float64) : float64 :=
  match y0, y1 with
  | Some a, Some b => Some ((b - a) / (x1 - x0) * (x - x0) + a)
  | _, _ => None
  end.

Definition interp_at (dx : list R) (dy : list float64) (x_val : R) : float64 :=
  let lenxp := length dx in
  let lval := nth 0 dy None in
  let rval := nth (lenxp - 1) dy None in
  if Rlt_dec (nth (lenxp - 1) dx 0) x_val then rval
  else if Rlt_dec x_val (nth 0 dx 0) then lval
  else
    let j := (search x_val dx - 1)%nat in
    if (j =? lenxp - 1)%nat then nth j dy None
    else lerp x_val (nth j dx 0) (nth (S j) dx 0)
              (nth j dy None) (nth (S j) dy None).

Definition compiled_interp (x dx : list R) (dy : list float64)
  : result (list float64) :=
  if (length dx =? 0)%nat then Raise ValueError
  else if negb (length dy =? length dx)%nat then Raise ValueError
  else Ok (map (interp_at dx dy) x).

(** [np.concatenate((xp[-1:]-period, xp, xp[0:1]+period))] and
    [np.concatenate((fp[-1:], fp, fp[0:1]))]. *)
Definition wrap_xp (xp : list R) (period : R) : list R :=
  map (fun v => v - period) (last1 xp) ++ xp
    ++ map (fun v => v + period) (first1 xp).

Definition wrap_fp (fp : list float64) : list float64 :=
  last1 fp ++ fp ++ first1 fp.

Definition interp (x xp : list R) (fp : list float64) (period : R)
  : result (list float64) :=
  if Req_dec_T period 0 then Raise ValueError
  else
    let period := Rabs period in
    if negb (length xp =? length fp)%nat then Raise ValueError
    else
      let x := map (fun v => np_mod v period) x in
      let xp := map (fun v => np_mod v period) xp in
      let asort_xp := argsort xp in
      let xp := take xp 0 asort_xp in
      let fp := take fp None asort_xp in
      let xp := wrap_xp xp period in
      let fp := wrap_fp fp in
      compiled_interp x xp fp.

(** ** The stages of [get_RVs] *)

(** [M = 2*np.pi/T*(t-t0)]: the scalar quotient is evaluated first. *)
Definition mean_anomaly (T t0 : R) (t : list R) : result (list R) :=
  if Req_dec_T T 0 then Raise ZeroDivisionError
  else Ok (map (fun tk => 2 * PI / T * (tk - t0)) t).

(** [r = a*(1.-e*np.cos(E))] *)
Definition radius (a e : R) (E : list R) : list R :=
  map (fun Ek => a * (1 - e * cos Ek)) E.

(** [f = np.arccos(((a*(1.-e**2)/r)-1.0)/e)] *)
Definition true_anomaly_at (a e rk : R) : float64 :=
  fbind (np_div (a * (1 - e ^ 2)) rk) (fun q =>
  fbind (np_div (q - 1) e) np_arccos).

Definition true_anomaly (a e : R) (r : list R) : list float64 :=
  map (true_anomaly_at a e) r.

(** The start of the slice [f[i:]] of an array of [len] elements. *)
Definition slice_start (i : Z) (len : nat) : nat :=
  if (i <? 0)%Z then Z.to_nat (Z.max 0 (i + Z.of_nat len))
  else Nat.min (Z.to_nat i) len.

(** [(NT-1)/2] *)
Definition half_index (NT : nat) : Z :=
  ((Z.of_nat NT - 1) / 2)%Z.

Definition reflect (fk : R) : R :=
  fk + 2 * (PI - fk).

(** [f[(NT-1)/2:] += 2*(np.pi-f[(NT-1)/2:])] *)
Definition shift_second_half (NT : nat) (f : list float64) : list float64 :=
  let s := slice_start (half_index NT) (length f) in
  firstn s f ++ map (option_map reflect) (skipn s f).

(** [RV = np.array([vr(VZ, K, w, fk, e) for fk in f])] *)
Definition radial_velocities (VZ K w e : R) (f : list float64) : list float64 :=
  map (option_map (fun fk => vr VZ K w fk e)) f.

Section Orbit.

(** [sp.newton(func, x0)], with the extra arguments already applied to
    [func]. *)
Variable newton : (R -> R) -> R -> result R.

(** [E = np.array([sp.newton(func = kepler, x0 = Mk, args = (e, Mk))
    for Mk in M])] *)
Definition eccentric_anomaly (e : R) (M : list R) : result (list R) :=
  comprehension (fun Mk => newton (fun E => kepler E e Mk) Mk) M.

(** Lines 52 to 62: the time grid [t] and the radial velocities [RV] of one
    period. *)
Definition one_period (K T t0 w e a VZ : R) (NT : nat)
  : result (list R * list float64) :=
  let t := linspace t0 (t0 + T) NT in
  M <- mean_anomaly T t0 t ;;
  E <- eccentric_anomaly e M ;;
  let r := radius a e E in
  let f := true_anomaly a e r in
  let f := shift_second_half NT f in
  let RV := radial_velocities VZ K w e f in
  Ok (t, RV).

Definition get_RVs (K T t0 w e a VZ start end_ : R) (NT N : nat)
  : result (list R * list float64) :=
  p <- one_period K T t0 w e a VZ NT ;;
  let '(t, RV) := p in
  let ts := linspace start end_ N in
  RVs <- interp ts t RV T ;;
  Ok (ts, RVs).

End Orbit.

(** ** Vocabulary of the statements *)

(** The mean anomalies of the one-period grid (the array [M]). *)
Definition grid_anomalies (T t0 : R) (NT : nat) : list R :=
  map (fun tk => 2 * PI / T * (tk - t0)) (linspace t0 (t0 + T) NT).

(** The solver returns an eccentric anomaly for the mean anomaly [Mk]. *)
Definition converges (newton : (R -> R) -> R -> result R) (e Mk : R) : Prop :=
  exists Ek, newton (fun E => kepler E e Mk) Mk = Ok Ek.

(** The sorted and wrapped reference arrays that [interp] hands to the
    compiled routine, for a positive [period]. *)
Definition periodic_xp (xp : list R) (period : R) : list R :=
  let xp := map (fun v => np_mod v period) xp in
  wrap_xp (take xp 0 (argsort xp)) period.

Definition periodic_fp (xp : list R) (fp : list float64) (period : R)
  : list float64 :=
  let xp := map (fun v => np_mod v period) xp in
  wrap_fp (take fp None (argsort xp)).

(** [(X, Y)] is a reference sample moved by a whole number of periods:
    [X] is the phase of some time [xp[a]] plus a multiple of the period and
    [Y] is the value [fp[a]]. *)
Definition sample_of (xp : list R) (fp : list float64) (period X : R)
           (Y : float64) : Prop :=
  exists (a : nat) (m : Z),
    (a < length xp)%nat
    /\ X = np_mod (nth a xp 0) period + IZR m * period
    /\ Y = nth a fp None.

(** The resampler's guarantee, in the words of the specification: the
    target time is reduced modulo [T] relative to the origin [t0] of the
    grid, and the value is interpolated linearly between the two samples
    of the uniform grid of step [T/(NT-1)] around the reduced time. *)
Definition periodic_lerp (T t0 : R) (NT : nat) (rv : list R) (x : R) : R :=
  let h := T / INR (NT - 1) in
  let v := np_mod (x - t0) T in
  let k := Z.to_nat (Zfloor (v / h)) in
  nth k rv 0 + (nth (S k) rv 0 - nth k rv 0) * ((v - INR k * h) / h).

(** A solver with a budget of one step, to run the pipeline on: it returns
    the initial guess when the guess is a root, and otherwise raises with
    the iterate it has reached ([x0 - func x0], for Kepler's equation the
    fixed-point step [M + e*sin x0]) in the exception, as SciPy reports
    its last iterate. *)
Definition one_step_solver (func : R -> R) (x0 : R) : result R :=
  if Req_dec_T (func x0) 0 then Ok x0
  else Raise (RuntimeError (x0 - func x0)).

(** * Properties *)

(** ** The result monad *)

Lemma bind_Ok {A B : Type} (c : result A) (k : A -> result B) (b : B) :
  bind c k = Ok b -> exists a, c = Ok a /\ k a = Ok b.
Proof.
  destruct c as [a|e]; simpl; intros H; [exists a; auto | discriminate].
Qed.

Lemma comprehension_length {A B : Type} (body : A -> result B) :
  forall l bs, comprehension body l = Ok bs -> length bs = length l.
Proof.
  induction l as [|a l IH]; simpl; intros bs H.
  - injection H as <-. reflexivity.
  - destruct (body a) as [b|]; simpl in H; [|discriminate].
    destruct (comprehension body l) as [bs'|]; simpl in H; [|discriminate].
    injection H as <-. simpl. f_equal. now apply IH.
Qed.

(** Every body succeeds: the comprehension returns the list of results. *)
Lemma comprehension_all_ok {A B : Type} (body : A -> result B) :
  forall l, (forall a, In a l -> exists b, body a = Ok b) ->
            exists bs, comprehension body l = Ok bs.
Proof.
  induction l as [|a l IH]; simpl; intros H.
  - now exists [].
  - destruct (H a (or_introl eq_refl)) as [b Hb].
    destruct IH as [bs Hbs]; [intros; apply H; now right|].
    exists (b :: bs). now rewrite Hb, Hbs.
Qed.

(** The first body that raises decides the result. *)
Lemma comprehension_first_raise {A B : Type} (body : A -> result B) :
  forall l1 a l2 err,
    (forall x, In x l1 -> exists b, body x = Ok b) ->
    body a = Raise err ->
    comprehension body (l1 ++ a :: l2) = Raise err.
Proof.
  induction l1 as [|x l1 IH]; simpl; intros a l2 err Hok Ha.
  - now rewrite Ha.
  - destruct (Hok x (or_introl eq_refl)) as [b ->]. simpl.
    rewrite (IH a l2 err); auto.
Qed.

(** ** Lists *)

Lemma nth_map_in {A B : Type} (f : A -> B) (l : list A) (d : B) (d' : A) (i : nat) :
  (i < length l)%nat -> nth i (map f l) d = f (nth i l d').
Proof.
  intros Hi. rewrite (nth_indep _ d (f d')) by (now rewrite length_map).
  apply map_nth.
Qed.

Lemma nth_map_float (f : R -> float64) (l : list R) (i : nat) :
  (i < length l)%nat -> nth i (map f l) None = f (nth i l 0).
Proof. apply nth_map_in. Qed.

(** ** [linspace] *)

Lemma set_last_length (l : list R) (v : R) : length (set_last l v) = length l.
Proof.
  destruct l as [|x l]; [reflexivity|].
  unfold set_last. rewrite length_app, removelast_firstn_len, length_firstn.
  simpl. lia.
Qed.

Lemma set_last_nth (l : list R) (v : R) (i : nat) :
  (i < length l)%nat ->
  nth i (set_last l v) 0 = if (S i =? length l)%nat then v else nth i l 0.
Proof.
  intros Hi. destruct l as [|x l]; [simpl in Hi; lia|].
  unfold set_last. rewrite removelast_firstn_len.
  set (l0 := x :: l) in *.
  assert (Hlen : length (firstn (Nat.pred (length l0)) l0) = Nat.pred (length l0))
    by (rewrite length_firstn; lia).
  destruct (Nat.eqb_spec (S i) (length l0)) as [E|E].
  - rewrite app_nth2 by lia. rewrite Hlen.
    replace (i - Nat.pred (length l0))%nat with 0%nat by lia. reflexivity.
  - rewrite app_nth1 by lia. rewrite nth_firstn.
    destruct (Nat.ltb_spec i (Nat.pred (length l0))); [reflexivity|lia].
Qed.

Lemma linspace_length (start stop : R) (num : nat) :
  length (linspace start stop num) = num.
Proof.
  unfold linspace. destruct (1 <? num)%nat.
  - rewrite set_last_length. now rewrite !length_map, length_seq.
  - now rewrite !length_map, length_seq.
Qed.

(** The samples are evenly spaced: sample [i] is [start + i * step] with
    [step = (stop - start) / (num - 1)]. *)
Lemma linspace_nth (start stop : R) (num i : nat) :
  (i < num)%nat ->
  nth i (linspace start stop num) 0
  = start + INR i * ((stop - start) / INR (num - 1)).
Proof.
  intros Hi. unfold linspace.
  assert (Hnth : forall c, nth i (map (fun yi => yi + start)
                     (map (fun yi => yi * c) (map INR (seq 0 num)))) 0
                 = INR i * c + start).
  { intros c. rewrite !map_map.
    rewrite (nth_map_in _ _ 0 0%nat) by (now rewrite length_seq).
    rewrite seq_nth by lia. reflexivity. }
  destruct (Nat.ltb_spec 1 num) as [H1|H1].
  - rewrite set_last_nth by (now rewrite !length_map, length_seq).
    rewrite !length_map, length_seq.
    destruct (Nat.eqb_spec (S i) num) as [E|E].
    + subst num. replace (S i - 1)%nat with i by lia.
      assert (INR i <> 0) by (apply not_0_INR; lia). field. assumption.
    + rewrite Hnth. lra.
  - assert (num = 1%nat) by lia. subst num.
    assert (i = 0%nat) by lia. subst i. rewrite Hnth. simpl. lra.
Qed.

Lemma linspace_one (start stop : R) : linspace start stop 1 = [start].
Proof.
  unfold linspace. simpl. f_equal. lra.
Qed.

Lemma linspace_last (start stop : R) (num : nat) :
  (2 <= num)%nat -> nth (num - 1) (linspace start stop num) 0 = stop.
Proof.
  intros H. rewrite linspace_nth by lia.
  assert (INR (num - 1) <> 0) by (apply not_0_INR; lia). field. assumption.
Qed.

(** ** The half-period shift *)

Lemma half_index_nat (NT : nat) :
  (1 <= NT)%nat -> half_index NT = Z.of_nat ((NT - 1) / 2).
Proof.
  intros H. unfold half_index.
  rewrite Nat2Z.inj_div, Nat2Z.inj_sub by lia. reflexivity.
Qed.

Lemma slice_start_half (NT : nat) :
  (1 <= NT)%nat -> slice_start (half_index NT) NT = ((NT - 1) / 2)%nat.
Proof.
  intros H. rewrite half_index_nat by assumption. unfold slice_start.
  destruct (Z.ltb_spec (Z.of_nat ((NT - 1) / 2)) 0) as [Hneg|_]; [lia|].
  rewrite Nat2Z.id. apply Nat.min_l.
  pose proof (Nat.Div0.div_le_upper_bound (NT - 1) 2 NT). lia.
Qed.

Lemma slice_start_le (i : Z) (len : nat) : (slice_start i len <= len)%nat.
Proof.
  unfold slice_start. destruct (Z.ltb_spec i 0); lia.
Qed.

Lemma shift_second_half_length (NT : nat) (f : list float64) :
  length (shift_second_half NT f) = length f.
Proof.
  unfold shift_second_half.
  rewrite length_app, length_map, <- length_app, firstn_skipn. reflexivity.
Qed.

Lemma shift_second_half_nth (NT : nat) (f : list float64) (i : nat) :
  length f = NT -> (i < NT)%nat ->
  nth i (shift_second_half NT f) None
  = if (i <? (NT - 1) / 2)%nat then nth i f None
    else option_map reflect (nth i f None).
Proof.
  intros Hlen Hi. unfold shift_second_half.
  rewrite Hlen, slice_start_half by lia.
  set (s := ((NT - 1) / 2)%nat).
  assert (Hs : (s <= NT)%nat).
  { unfold s. pose proof (Nat.Div0.div_le_upper_bound (NT - 1) 2 NT). lia. }
  assert (Hfl : length (firstn s f) = s) by (rewrite length_firstn; lia).
  destruct (Nat.ltb_spec i s) as [Hlt|Hge].
  - rewrite app_nth1 by lia. rewrite nth_firstn.
    destruct (Nat.ltb_spec i s); [reflexivity|lia].
  - rewrite app_nth2 by lia. rewrite Hfl.
    rewrite (nth_map_in (option_map reflect) _ None None)
      by (rewrite length_skipn; lia).
    rewrite nth_skipn. do 2 f_equal. lia.
Qed.

(** ** The true anomaly *)

Lemma true_anomaly_length (a e : R) (r : list R) :
  length (true_anomaly a e r) = length r.
Proof. apply length_map. Qed.

Lemma np_arccos_range (x fk : R) : np_arccos x = Some fk -> 0 <= fk <= PI.
Proof.
  unfold np_arccos. destruct (Rle_dec (-1) x); [|discriminate].
  destruct (Rle_dec x 1); [|discriminate].
  intros H. injection H as <-. apply acos_bound.
Qed.

(** A true anomaly that is a number lies on the principal branch. *)
Lemma true_anomaly_at_range (a e rk fk : R) :
  true_anomaly_at a e rk = Some fk -> 0 <= fk <= PI.
Proof.
  unfold true_anomaly_at, fbind.
  destruct (np_div (a * (1 - e ^ 2)) rk); [|discriminate].
  destruct (np_div (r - 1) e); [|discriminate].
  apply np_arccos_range.
Qed.

(** Division by a zero eccentricity: the true anomaly is not a number. *)
Lemma true_anomaly_at_circular (a rk : R) : true_anomaly_at a 0 rk = None.
Proof.
  unfold true_anomaly_at, fbind.
  destruct (np_div (a * (1 - 0 ^ 2)) rk); [|reflexivity].
  unfold np_div. destruct (Req_dec_T 0 0) as [_|H]; [reflexivity|].
  now contradiction H.
Qed.

(** ** Claims on the stages *)

(** C6. The velocity model [vr] is a total function of its five real
    arguments and returns [VZ + K*(cos(w_rad + f) + e*cos(w_rad))] with
    [w_rad = w*pi/180]; the conversion of [w] stays local to the call. *)
Theorem vr_formula (VZ K w f e : R) :
  vr VZ K w f e
  = VZ + K * (cos (w * PI / 180 + f) + e * cos (w * PI / 180)).
Proof.
  unfold vr. replace (w * (PI / 180)) with (w * PI / 180) by lra.
  reflexivity.
Qed.

(** C2. Over a grid of [NT] samples, the true anomaly of every sample at
    or past index [(NT-1)/2] is replaced by [f + 2*(pi - f)] and the
    samples before that index are left unchanged; a value of the principal
    branch [0..pi] is sent into [pi..2*pi], and into the open interval
    when it lies strictly inside the branch. *)
Theorem second_half_unwrap (a e : R) (r : list R) (NT i : nat) :
  length r = NT -> (i < NT)%nat ->
  let f := true_anomaly a e r in
  let f' := shift_second_half NT f in
  let mid := ((NT - 1) / 2)%nat in
  ((mid <= i)%nat ->
     nth i f' None
     = option_map (fun fk => fk + 2 * (PI - fk)) (nth i f None)) /\
  ((i < mid)%nat -> nth i f' None = nth i f None) /\
  (forall fk, (mid <= i)%nat -> nth i f None = Some fk ->
     nth i f' None = Some (fk + 2 * (PI - fk)) /\
     PI <= fk + 2 * (PI - fk) <= 2 * PI /\
     (0 < fk < PI -> PI < fk + 2 * (PI - fk) < 2 * PI)).
Proof.
  intros Hlen Hi f f' mid.
  assert (Hnth : nth i f' None
                 = if (i <? mid)%nat then nth i f None
                   else option_map reflect (nth i f None)).
  { apply shift_second_half_nth; [|assumption].
    unfold f. now rewrite true_anomaly_length. }
  split; [|split].
  - intros Hge. rewrite Hnth.
    destruct (Nat.ltb_spec i mid); [lia|reflexivity].
  - intros Hlt. rewrite Hnth.
    destruct (Nat.ltb_spec i mid); [reflexivity|lia].
  - intros fk Hge Hfk.
    assert (Hr : 0 <= fk <= PI).
    { apply (true_anomaly_at_range a e (nth i r 0)).
      rewrite <- Hfk. unfold f, true_anomaly.
      symmetry. apply nth_map_in. lia. }
    split; [|split].
    + rewrite Hnth. destruct (Nat.ltb_spec i mid); [lia|].
      now rewrite Hfk.
    + lra.
    + lra.
Qed.

Lemma second_half_unwrap_witness :
  let f := true_anomaly 1 (1 / 2) [1 / 2; 3 / 2; 1 / 2] in
  let f' := shift_second_half 3 f in
  let mid := ((3 - 1) / 2)%nat in
  ((mid <= 2)%nat ->
     nth 2 f' None
     = option_map (fun fk => fk + 2 * (PI - fk)) (nth 2 f None)) /\
  ((2 < mid)%nat -> nth 2 f' None = nth 2 f None) /\
  (forall fk, (mid <= 2)%nat -> nth 2 f None = Some fk ->
     nth 2 f' None = Some (fk + 2 * (PI - fk)) /\
     PI <= fk + 2 * (PI - fk) <= 2 * PI /\
     (0 < fk < PI -> PI < fk + 2 * (PI - fk) < 2 * PI)).
Proof.
  apply (second_half_unwrap 1 (1 / 2) [1 / 2; 3 / 2; 1 / 2] 3 2).
  - reflexivity.
  - lia.
Defined.

(** C3 (the code at [e = 0]). For a circular orbit the quotient by [e]
    is a division by zero: the true anomaly of every sample is [nan],
    whatever the eccentric anomalies are, and so is never the mean
    anomaly. *)
Theorem circular_orbit_true_anomaly (a : R) (NT : nat) (E : list R) :
  let f := shift_second_half NT (true_anomaly a 0 (radius a 0 E)) in
  Forall (fun fk => fk = None) f
  /\ forall i Mk, nth i f None <> Some Mk.
Proof.
  intros f.
  assert (Hall : Forall (fun fk : float64 => fk = None) f).
  { unfold f, shift_second_half.
    set (s := slice_start _ _). clearbody s.
    assert (H : Forall (fun fk : float64 => fk = None)
                       (true_anomaly a 0 (radius a 0 E))).
    { unfold true_anomaly. apply Forall_map, Forall_forall.
      intros rk _. apply true_anomaly_at_circular. }
    rewrite <- (firstn_skipn s (true_anomaly a 0 (radius a 0 E))) in H at 1.
    apply Forall_app in H. destruct H as [Hfirst Hrest].
    apply Forall_app. split; [assumption|].
    apply Forall_map. revert Hrest. apply Forall_impl.
    intros fk ->. reflexivity. }
  split; [assumption|].
  intros i Mk Hi.
  destruct (nth_in_or_default i f None) as [Hin|Hd].
  - rewrite Forall_forall in Hall. rewrite (Hall _ Hin) in Hi. discriminate.
  - rewrite Hd in Hi. discriminate.
Qed.

(** ** [interp]: shapes *)

Lemma insert_index_length (key : nat -> R) (i : nat) (l : list nat) :
  length (insert_index key i l) = S (length l).
Proof.
  induction l as [|j l IH]; simpl; [reflexivity|].
  destruct (Rle_dec (key i) (key j)); simpl; [reflexivity|now rewrite IH].
Qed.

Lemma argsort_length (a : list R) : length (argsort a) = length a.
Proof.
  unfold argsort. rewrite <- (length_seq (length a) 0) at 2.
  generalize (seq 0 (length a)) as l.
  induction l as [|i l IH]; simpl; [reflexivity|].
  now rewrite insert_index_length, IH.
Qed.

Lemma take_length {A : Type} (a : list A) (d : A) (idx : list nat) :
  length (take a d idx) = length idx.
Proof. apply length_map. Qed.

Lemma last1_length {A : Type} (a : list A) :
  length (last1 a) = Nat.min 1 (length a).
Proof. unfold last1. rewrite length_skipn. lia. Qed.

Lemma first1_length {A : Type} (a : list A) :
  length (first1 a) = Nat.min 1 (length a).
Proof. unfold first1. now rewrite length_firstn. Qed.

Lemma wrap_xp_length (xp : list R) (period : R) :
  length (wrap_xp xp period) = (length xp + 2 * Nat.min 1 (length xp))%nat.
Proof.
  unfold wrap_xp.
  rewrite !length_app, !length_map, last1_length, first1_length. lia.
Qed.

Lemma wrap_fp_length (fp : list float64) :
  length (wrap_fp fp) = (length fp + 2 * Nat.min 1 (length fp))%nat.
Proof.
  unfold wrap_fp. rewrite !length_app, last1_length, first1_length. lia.
Qed.

Lemma periodic_xp_length (xp : list R) (period : R) :
  length (periodic_xp xp period)
  = (length xp + 2 * Nat.min 1 (length xp))%nat.
Proof.
  unfold periodic_xp.
  now rewrite wrap_xp_length, take_length, argsort_length, length_map.
Qed.

Lemma periodic_fp_length (xp : list R) (fp : list float64) (period : R) :
  length (periodic_fp xp fp period)
  = (length xp + 2 * Nat.min 1 (length xp))%nat.
Proof.
  unfold periodic_fp.
  now rewrite wrap_fp_length, take_length, argsort_length, length_map.
Qed.

(** With a non-zero period and a non-empty reference of matching lengths,
    [interp] returns one value per target, found in the sorted and wrapped
    reference at the target reduced modulo the period. *)
Lemma interp_unfold (x xp : list R) (fp : list float64) (period : R) :
  period <> 0 -> length xp = length fp -> (1 <= length xp)%nat ->
  interp x xp fp period
  = Ok (map (fun v => interp_at (periodic_xp xp (Rabs period))
                                (periodic_fp xp fp (Rabs period))
                                (np_mod v (Rabs period))) x).
Proof.
  intros Hp Hlen Hne. unfold interp.
  destruct (Req_dec_T period 0) as [E|_]; [contradiction|].
  rewrite Hlen, Nat.eqb_refl. simpl negb. cbv iota.
  fold (periodic_xp xp (Rabs period)).
  fold (periodic_fp xp fp (Rabs period)).
  unfold compiled_interp.
  rewrite periodic_xp_length, periodic_fp_length.
  destruct (Nat.eqb_spec (length xp + 2 * Nat.min 1 (length xp)) 0); [lia|].
  rewrite Nat.eqb_refl. simpl. now rewrite map_map.
Qed.

(** An empty reference is rejected by the compiled routine. *)
Lemma interp_empty (x : list R) (period : R) :
  period <> 0 -> interp x [] [] period = Raise ValueError.
Proof.
  intros Hp. unfold interp.
  destruct (Req_dec_T period 0) as [E|_]; [contradiction|]. reflexivity.
Qed.

(** ** The pipeline returns *)

Lemma grid_anomalies_length (T t0 : R) (NT : nat) :
  length (grid_anomalies T t0 NT) = NT.
Proof. unfold grid_anomalies. now rewrite length_map, linspace_length. Qed.

Lemma one_period_zero_period (newton : (R -> R) -> R -> result R)
      (K t0 w e a VZ : R) (NT : nat) :
  one_period newton K 0 t0 w e a VZ NT = Raise ZeroDivisionError.
Proof.
  unfold one_period, mean_anomaly.
  destruct (Req_dec_T 0 0) as [_|H]; [reflexivity|now contradiction H].
Qed.

Lemma one_period_ok (newton : (R -> R) -> R -> result R)
      (K T t0 w e a VZ : R) (NT : nat) :
  T <> 0 ->
  Forall (converges newton e) (grid_anomalies T t0 NT) ->
  exists RV,
    one_period newton K T t0 w e a VZ NT = Ok (linspace t0 (t0 + T) NT, RV)
    /\ length RV = NT.
Proof.
  intros HT Hconv. unfold one_period, mean_anomaly.
  destruct (Req_dec_T T 0) as [E|_]; [contradiction|]. simpl.
  fold (grid_anomalies T t0 NT).
  destruct (comprehension_all_ok
              (fun Mk => newton (fun E => kepler E e Mk) Mk)
              (grid_anomalies T t0 NT)) as [E HE].
  { intros Mk HMk. rewrite Forall_forall in Hconv. apply Hconv, HMk. }
  unfold eccentric_anomaly. rewrite HE. simpl.
  eexists. split; [reflexivity|].
  unfold radial_velocities, radius.
  rewrite length_map, shift_second_half_length, true_anomaly_length, length_map.
  rewrite (comprehension_length _ _ _ HE). apply grid_anomalies_length.
Qed.

Lemma get_RVs_ok (newton : (R -> R) -> R -> result R)
      (K T t0 w e a VZ start end_ : R) (NT N : nat) :
  T <> 0 -> (1 <= NT)%nat ->
  Forall (converges newton e) (grid_anomalies T t0 NT) ->
  exists RVs,
    get_RVs newton K T t0 w e a VZ start end_ NT N
    = Ok (linspace start end_ N, RVs)
    /\ length RVs = N.
Proof.
  intros HT HNT Hconv.
  destruct (one_period_ok newton K T t0 w e a VZ NT HT Hconv) as (RV & HRV & Hlen).
  unfold get_RVs. rewrite HRV. simpl.
  rewrite interp_unfold; [|assumption|now rewrite linspace_length|
                          now rewrite linspace_length].
  simpl. eexists. split; [reflexivity|].
  now rewrite length_map, linspace_length.
Qed.

(** ** The grid of mean anomalies *)

(** Two explicit lists of reals are equal when their elements are. *)
Ltac list_of_reals :=
  repeat (apply (f_equal2 (@cons R))); try reflexivity.

Lemma grid_anomalies_two (T t0 : R) :
  T <> 0 -> grid_anomalies T t0 2 = [0; 2 * PI].
Proof.
  intros HT. unfold grid_anomalies, linspace. simpl.
  list_of_reals; field; assumption.
Qed.

Lemma grid_anomalies_three (T t0 : R) :
  T <> 0 -> grid_anomalies T t0 3 = [0; PI; 2 * PI].
Proof.
  intros HT. unfold grid_anomalies, linspace. simpl.
  list_of_reals; field; assumption.
Qed.

Lemma grid_anomalies_five (T t0 : R) :
  T <> 0 ->
  grid_anomalies T t0 5 = [0; PI / 2; PI; 3 * (PI / 2); 2 * PI].
Proof.
  intros HT. unfold grid_anomalies, linspace. simpl.
  list_of_reals; field; assumption.
Qed.

(** ** The one-step solver on Kepler's equation *)

Lemma one_step_solver_root (e Mk : R) :
  sin Mk = 0 -> one_step_solver (fun E => kepler E e Mk) Mk = Ok Mk.
Proof.
  intros Hsin. unfold one_step_solver, kepler. rewrite Hsin.
  destruct (Req_dec_T (Mk - e * 0 - Mk) 0) as [_|H]; [reflexivity|].
  contradiction H. lra.
Qed.

Lemma one_step_solver_gives_up (e Mk : R) :
  e * sin Mk <> 0 ->
  one_step_solver (fun E => kepler E e Mk) Mk
  = Raise (RuntimeError (Mk + e * sin Mk)).
Proof.
  intros Hsin. unfold one_step_solver, kepler.
  destruct (Req_dec_T (Mk - e * sin Mk - Mk) 0) as [H|_].
  - contradiction Hsin. lra.
  - do 2 f_equal. lra.
Qed.

Lemma one_step_solver_two (e T t0 : R) :
  T <> 0 -> Forall (converges one_step_solver e) (grid_anomalies T t0 2).
Proof.
  intros HT. rewrite grid_anomalies_two by assumption.
  repeat constructor; eexists; apply one_step_solver_root.
  - apply sin_0.
  - apply sin_2PI.
Qed.

Lemma one_step_solver_three (e T t0 : R) :
  T <> 0 -> Forall (converges one_step_solver e) (grid_anomalies T t0 3).
Proof.
  intros HT. rewrite grid_anomalies_three by assumption.
  repeat constructor; eexists; apply one_step_solver_root.
  - apply sin_0.
  - apply sin_PI.
  - apply sin_2PI.
Qed.

(** ** Claims on the entry point *)

(** C9. Whenever the period is not zero, the grid has a sample and the
    solver returns for every mean anomaly, [get_RVs] returns [N] times
    evenly spaced from [start] to [end] and [N] radial velocities; with
    [N = 1] the only time is [start]. *)
Theorem get_RVs_samples (newton : (R -> R) -> R -> result R)
        (K T t0 w e a VZ start end_ : R) (NT N : nat) :
  T <> 0 -> (1 <= NT)%nat ->
  Forall (converges newton e) (grid_anomalies T t0 NT) ->
  (1 <= N)%nat ->
  exists ts RVs,
    get_RVs newton K T t0 w e a VZ start end_ NT N = Ok (ts, RVs)
    /\ length ts = N /\ length RVs = N
    /\ (forall i, (i < N)%nat ->
          nth i ts 0 = start + INR i * ((end_ - start) / INR (N - 1)))
    /\ nth 0 ts 0 = start
    /\ ((2 <= N)%nat -> nth (N - 1) ts 0 = end_)
    /\ (N = 1%nat -> ts = [start]).
Proof.
  intros HT HNT Hconv HN.
  destruct (get_RVs_ok newton K T t0 w e a VZ start end_ NT N HT HNT Hconv)
    as (RVs & Hget & Hlen).
  exists (linspace start end_ N), RVs.
  repeat split; try assumption.
  - apply linspace_length.
  - intros i Hi. now apply linspace_nth.
  - rewrite linspace_nth by lia. simpl. lra.
  - intros H2. now apply linspace_last.
  - intros ->. apply linspace_one.
Qed.

Lemma get_RVs_samples_witness :
  exists ts RVs,
    get_RVs one_step_solver 1 2 0 0 (1 / 2) 1 0 0 1 3 1 = Ok (ts, RVs)
    /\ length ts = 1%nat /\ length RVs = 1%nat
    /\ (forall i, (i < 1)%nat ->
          nth i ts 0 = 0 + INR i * ((1 - 0) / INR (1 - 1)))
    /\ nth 0 ts 0 = 0
    /\ ((2 <= 1)%nat -> nth (1 - 1) ts 0 = 1)
    /\ (1%nat = 1%nat -> ts = [0]).
Proof.
  apply (get_RVs_samples one_step_solver 1 2 0 0 (1 / 2) 1 0 0 1 3 1).
  - lra.
  - lia.
  - apply one_step_solver_three. lra.
  - lia.
Defined.

(** C8 (counterexample). Nothing is validated: with [N = 0] the call
    returns two empty sequences, and with the eccentricity [e = 2] it
    returns a sample. *)
Lemma invalid_parameters_accepted :
  get_RVs one_step_solver 1 2 0 0 (1 / 2) 1 0 0 1 3 0 = Ok ([], [])
  /\ exists RVs,
       get_RVs one_step_solver 1 2 0 0 2 1 0 0 1 3 1 = Ok ([0], RVs).
Proof.
  split.
  - destruct (get_RVs_ok one_step_solver 1 2 0 0 (1 / 2) 1 0 0 1 3 0)
      as (RVs & Hget & Hlen);
      [lra | lia | apply one_step_solver_three; lra |].
    rewrite Hget. destruct RVs; [reflexivity|discriminate].
  - destruct (get_RVs_ok one_step_solver 1 2 0 0 2 1 0 0 1 3 1)
      as (RVs & Hget & Hlen);
      [lra | lia | apply one_step_solver_three; lra |].
    exists RVs. rewrite Hget, linspace_one. reflexivity.
Qed.

(** C8 (amended). The entry point checks no parameter.  A zero period
    raises [ZeroDivisionError] when the mean anomaly is computed, whatever
    the solver would do; an empty grid ([NT = 0]) raises [ValueError] in
    the interpolation; for every other value of the parameters, among them
    [e] outside [0,1), [NT = 1], [N = 0] and [T < 0], the call returns [N]
    samples as soon as the solver returns for every mean anomaly. *)
Theorem no_parameter_validation (newton : (R -> R) -> R -> result R)
        (K T t0 w e a VZ start end_ : R) (NT N : nat) :
  (T = 0 ->
   get_RVs newton K T t0 w e a VZ start end_ NT N = Raise ZeroDivisionError)
  /\ (T <> 0 -> NT = 0%nat ->
      get_RVs newton K T t0 w e a VZ start end_ NT N = Raise ValueError)
  /\ (T <> 0 -> (1 <= NT)%nat ->
      Forall (converges newton e) (grid_anomalies T t0 NT) ->
      exists ts RVs,
        get_RVs newton K T t0 w e a VZ start end_ NT N = Ok (ts, RVs)
        /\ length ts = N /\ length RVs = N).
Proof.
  repeat split.
  - intros ->. unfold get_RVs. now rewrite one_period_zero_period.
  - intros HT ->. unfold get_RVs, one_period, mean_anomaly.
    destruct (Req_dec_T T 0) as [E|_]; [contradiction|]. simpl.
    change (linspace t0 (t0 + T) 0) with (@nil R).
    now rewrite interp_empty.
  - intros HT HNT Hconv.
    destruct (get_RVs_ok newton K T t0 w e a VZ start end_ NT N HT HNT Hconv)
      as (RVs & Hget & Hlen).
    exists (linspace start end_ N), RVs.
    repeat split; try assumption. apply linspace_length.
Qed.

(** C10 (counterexample). With the even [NT = 1000] the slice bound is
    the integer 499, and with the even [NT = 2] the entry point returns. *)
Lemma even_grid_is_sliced :
  half_index 1000 = 499%Z
  /\ exists ts RVs,
       get_RVs one_step_solver 1 2 0 0 (1 / 2) 1 0 0 1 2 1 = Ok (ts, RVs).
Proof.
  split; [reflexivity|].
  destruct (get_RVs_ok one_step_solver 1 2 0 0 (1 / 2) 1 0 0 1 2 1)
    as (RVs & Hget & Hlen);
    [lra | lia | apply one_step_solver_two; lra |].
  now exists (linspace 0 1 1), RVs.
Qed.

(** C10 (amended). [(NT-1)/2] is the floor division of integers: the slice
    bound is an integer for every [NT], equal to the middle index
    [(NT-1)/2] when [NT] is odd and to [NT/2 - 1] when [NT] is even; the
    shift keeps the length of the array, leaves the samples before the
    bound unchanged and reflects the others; and the entry point returns
    for even and odd [NT] alike when the solver does. *)
Theorem half_index_floor (NT : nat) :
  (1 <= NT)%nat ->
  half_index NT = Z.of_nat ((NT - 1) / 2)
  /\ (Nat.Odd NT -> (2 * ((NT - 1) / 2) = NT - 1)%nat)
  /\ (Nat.Even NT -> ((NT - 1) / 2 = NT / 2 - 1)%nat)
  /\ (forall f : list float64, length f = NT ->
        length (shift_second_half NT f) = NT
        /\ forall i, (i < NT)%nat ->
             nth i (shift_second_half NT f) None
             = if (i <? (NT - 1) / 2)%nat then nth i f None
               else option_map reflect (nth i f None))
  /\ (forall newton K T t0 w e a VZ start end_ N,
        T <> 0 ->
        Forall (converges newton e) (grid_anomalies T t0 NT) ->
        exists ts RVs,
          get_RVs newton K T t0 w e a VZ start end_ NT N = Ok (ts, RVs)).
Proof.
  intros HNT. split; [now apply half_index_nat|]. split; [|split; [|split]].
  - intros [k ->]. replace (2 * k + 1 - 1)%nat with (k * 2)%nat by lia.
    rewrite Nat.div_mul; lia.
  - intros [k ->]. rewrite (Nat.mul_comm 2 k), Nat.div_mul by lia.
    destruct k as [|k]; [lia|].
    replace (S k * 2 - 1)%nat with (1 + k * 2)%nat by lia.
    rewrite Nat.div_add by lia. simpl. lia.
  - intros f Hlen. split.
    + now rewrite shift_second_half_length.
    + intros i Hi. now apply shift_second_half_nth.
  - intros newton K T t0 w e a VZ start end_ N HT Hconv.
    destruct (get_RVs_ok newton K T t0 w e a VZ start end_ NT N HT HNT Hconv)
      as (RVs & Hget & _).
    now exists (linspace start end_ N), RVs.
Qed.

Lemma half_index_floor_witness :
  half_index 4 = Z.of_nat ((4 - 1) / 2)
  /\ (Nat.Odd 4 -> (2 * ((4 - 1) / 2) = 4 - 1)%nat)
  /\ (Nat.Even 4 -> ((4 - 1) / 2 = 4 / 2 - 1)%nat)
  /\ (forall f : list float64, length f = 4%nat ->
        length (shift_second_half 4 f) = 4%nat
        /\ forall i, (i < 4)%nat ->
             nth i (shift_second_half 4 f) None
             = if (i <? (4 - 1) / 2)%nat then nth i f None
               else option_map reflect (nth i f None))
  /\ (forall newton K T t0 w e a VZ start end_ N,
        T <> 0 ->
        Forall (converges newton e) (grid_anomalies T t0 4) ->
        exists ts RVs,
          get_RVs newton K T t0 w e a VZ start end_ 4 N = Ok (ts, RVs)).
Proof.
  apply (half_index_floor 4). lia.
Defined.

(** The exception of the first sample on which the solver raises ends
    the call. *)
Lemma get_RVs_first_raise (newton : (R -> R) -> R -> result R)
      (K T t0 w e a VZ start end_ : R) (NT N : nat)
      (before after : list R) (Mk : R) (err : exn) :
  T <> 0 ->
  grid_anomalies T t0 NT = before ++ Mk :: after ->
  Forall (converges newton e) before ->
  newton (fun E => kepler E e Mk) Mk = Raise err ->
  get_RVs newton K T t0 w e a VZ start end_ NT N = Raise err.
Proof.
  intros HT Hgrid Hbefore Herr.
  unfold get_RVs, one_period, mean_anomaly.
  destruct (Req_dec_T T 0) as [E|_]; [contradiction|]. simpl bind.
  fold (grid_anomalies T t0 NT). rewrite Hgrid.
  unfold eccentric_anomaly.
  rewrite (comprehension_first_raise _ before Mk after err).
  - reflexivity.
  - intros x Hx. rewrite Forall_forall in Hbefore. apply Hbefore, Hx.
  - exact Herr.
Qed.

(** C7 (counterexample). On a grid of five samples the one-step solver
    gives up at the second mean anomaly, [pi/2]; the exception that
    reaches the caller carries the solver's iterate [pi/2 + 1/2], not the
    mean anomaly. *)
Lemma solver_failure_payload :
  grid_anomalies 2 0 5 = [0] ++ PI / 2 :: [PI; 3 * (PI / 2); 2 * PI]
  /\ get_RVs one_step_solver 1 2 0 0 (1 / 2) 1 0 0 1 5 1
     = Raise (RuntimeError (PI / 2 + 1 / 2))
  /\ PI / 2 + 1 / 2 <> PI / 2.
Proof.
  assert (Hgrid : grid_anomalies 2 0 5
                  = [0] ++ PI / 2 :: [PI; 3 * (PI / 2); 2 * PI]).
  { rewrite grid_anomalies_five by lra. reflexivity. }
  split; [exact Hgrid|]. split; [|lra].
  apply (get_RVs_first_raise one_step_solver 1 2 0 0 (1 / 2) 1 0 0 1 5 1
           [0] [PI; 3 * (PI / 2); 2 * PI] (PI / 2)).
  - lra.
  - exact Hgrid.
  - repeat constructor. eexists. apply one_step_solver_root, sin_0.
  - rewrite one_step_solver_gives_up; rewrite sin_PI2; [|lra].
    do 2 f_equal. lra.
Qed.

(** C7 (amended). When the solver raises for a sample, having returned
    for the samples before it, [get_RVs] raises that same exception, as
    the solver built it, and returns no sequence. *)
Theorem solver_failure_propagates (newton : (R -> R) -> R -> result R)
        (K T t0 w e a VZ start end_ : R) (NT N : nat)
        (before after : list R) (Mk : R) (err : exn) :
  T <> 0 ->
  grid_anomalies T t0 NT = before ++ Mk :: after ->
  Forall (converges newton e) before ->
  newton (fun E => kepler E e Mk) Mk = Raise err ->
  get_RVs newton K T t0 w e a VZ start end_ NT N = Raise err
  /\ forall out, get_RVs newton K T t0 w e a VZ start end_ NT N <> Ok out.
Proof.
  intros HT Hgrid Hbefore Herr.
  rewrite (get_RVs_first_raise newton K T t0 w e a VZ start end_ NT N
             before after Mk err HT Hgrid Hbefore Herr).
  split; [reflexivity|discriminate].
Qed.

Lemma solver_failure_propagates_witness :
  get_RVs one_step_solver 1 2 0 0 (1 / 2) 1 0 0 1 5 1
  = Raise (RuntimeError (PI / 2 + 1 / 2 * sin (PI / 2)))
  /\ forall out, get_RVs one_step_solver 1 2 0 0 (1 / 2) 1 0 0 1 5 1 <> Ok out.
Proof.
  apply (solver_failure_propagates one_step_solver 1 2 0 0 (1 / 2) 1 0 0 1 5 1
           [0] [PI; 3 * (PI / 2); 2 * PI] (PI / 2)).
  - lra.
  - rewrite grid_anomalies_five by lra. reflexivity.
  - repeat constructor. eexists. apply one_step_solver_root, sin_0.
  - apply one_step_solver_gives_up. rewrite sin_PI2. lra.
Defined.

(** ** Remainders and congruence modulo the period *)

Lemma np_mod_range (x p : R) : 0 < p -> 0 <= np_mod x p < p.
Proof.
  intros Hp. unfold np_mod.
  pose proof (Zfloor_bound (x / p)) as [Hlo Hhi].
  assert (Hx : x = x / p * p) by (field; lra).
  set (z := IZR (Zfloor (x / p))) in *.
  split.
  - assert (z * p <= x / p * p) by (apply Rmult_le_compat_r; lra). lra.
  - assert (x / p * p < (z + 1) * p) by (apply Rmult_lt_compat_r; lra). lra.
Qed.

Lemma np_mod_congruent (x p : R) :
  x - np_mod x p = IZR (Zfloor (x / p)) * p.
Proof. unfold np_mod. lra. Qed.

(** Two reals of one period that differ by a multiple of the period are
    equal. *)
Lemma congruent_in_period (p a b : R) (m : Z) :
  0 < p -> 0 <= a < p -> 0 <= b < p -> a - b = IZR m * p -> a = b.
Proof.
  intros Hp Ha Hb Hm.
  assert (Hz : m = 0%Z).
  { assert (H1 : (m < 1)%Z).
    { apply lt_IZR. apply (Rmult_lt_reg_r p); [assumption|]. lra. }
    assert (H2 : (-1 < m)%Z).
    { apply lt_IZR. apply (Rmult_lt_reg_r p); [assumption|]. lra. }
    lia. }
  subst m. lra.
Qed.

Lemma np_mod_unique (x p v : R) (m : Z) :
  0 < p -> 0 <= v < p -> x - v = IZR m * p -> np_mod x p = v.
Proof.
  intros Hp Hv Hm.
  apply (congruent_in_period p _ _ (m - Zfloor (x / p))%Z);
    [assumption|now apply np_mod_range|assumption|].
  rewrite minus_IZR, Rmult_minus_distr_r, <- Hm, <- np_mod_congruent. lra.
Qed.

Lemma quotient_times_step (v s : R) : 0 < s -> v / s * s = v.
Proof. intros Hs. field. lra. Qed.

(** A positive integer multiple of a positive step is at least the step. *)
Lemma positive_multiple (h : R) (z : Z) :
  0 < h -> 0 < IZR z * h -> h <= IZR z * h.
Proof.
  intros Hh Hz.
  assert (H1 : (0 < z)%Z).
  { apply lt_IZR. apply (Rmult_lt_reg_r h); [assumption|]. lra. }
  assert (H2 : 1 <= IZR z) by (apply IZR_le; lia).
  assert (1 * h <= IZR z * h) by (apply Rmult_le_compat_r; lra). lra.
Qed.

(** ** [argsort] sorts *)

Lemma insert_index_perm (key : nat -> R) (i : nat) (l : list nat) :
  Permutation (insert_index key i l) (i :: l).
Proof.
  induction l as [|j l IH]; simpl; [reflexivity|].
  destruct (Rle_dec (key i) (key j)); [reflexivity|].
  rewrite IH. apply perm_swap.
Qed.

Lemma argsort_perm (a : list R) :
  Permutation (argsort a) (seq 0 (length a)).
Proof.
  unfold argsort. generalize (seq 0 (length a)) as l.
  induction l as [|i l IH]; simpl; [reflexivity|].
  rewrite insert_index_perm. now constructor.
Qed.

Lemma insert_index_sorted (key : nat -> R) (i : nat) (l : list nat) :
  StronglySorted (fun x y => key x <= key y) l ->
  StronglySorted (fun x y => key x <= key y) (insert_index key i l).
Proof.
  induction 1 as [|j l Hl IH Hj]; simpl.
  - constructor; constructor.
  - destruct (Rle_dec (key i) (key j)) as [Hle|Hgt].
    + constructor; [now constructor|].
      constructor; [assumption|].
      revert Hj. apply Forall_impl. intros x Hx. lra.
    + constructor; [assumption|].
      apply (Permutation_Forall (Permutation_sym (insert_index_perm key i l))).
      constructor; [lra|assumption].
Qed.

Lemma argsort_sorted (a : list R) :
  StronglySorted Rle (take a 0 (argsort a)).
Proof.
  assert (H : StronglySorted (fun x y => nth x a 0 <= nth y a 0) (argsort a)).
  { unfold argsort. generalize (seq 0 (length a)) as l.
    induction l as [|i l IH]; simpl; [constructor|].
    now apply insert_index_sorted. }
  unfold take. induction H as [|i l Hl IH Hi]; simpl; constructor.
  - assumption.
  - apply Forall_map. exact Hi.
Qed.

Lemma argsort_in (a : list R) (i : nat) :
  In i (argsort a) <-> (i < length a)%nat.
Proof.
  split; intros H.
  - apply (Permutation_in _ (argsort_perm a)) in H.
    apply in_seq in H. lia.
  - apply (Permutation_in _ (Permutation_sym (argsort_perm a))).
    apply in_seq. lia.
Qed.

Lemma StronglySorted_nth (l : list R) (i j : nat) :
  StronglySorted Rle l -> (i <= j)%nat -> (j < length l)%nat ->
  nth i l 0 <= nth j l 0.
Proof.
  intros Hs. revert i j.
  induction Hs as [|x l Hl IH Hx]; intros i j Hij Hj; simpl in Hj; [lia|].
  destruct i as [|i], j as [|j]; simpl; try lia.
  - lra.
  - rewrite Forall_forall in Hx. apply Hx, nth_In. lia.
  - apply IH; lia.
Qed.

(** ** The compiled routine between two samples *)

Lemma search_le (key : R) (arr : list R) : (search key arr <= length arr)%nat.
Proof.
  induction arr as [|v arr IH]; simpl; [lia|].
  destruct (Rle_dec v key); lia.
Qed.

Lemma search_below (key : R) (arr : list R) (i : nat) :
  (i < search key arr)%nat -> nth i arr 0 <= key.
Proof.
  revert i. induction arr as [|v arr IH]; simpl; intros i Hi; [lia|].
  destruct (Rle_dec v key) as [Hle|]; [|lia].
  destruct i as [|i]; [assumption|]. apply IH. lia.
Qed.

Lemma search_above (key : R) (arr : list R) :
  (search key arr < length arr)%nat -> key < nth (search key arr) arr 0.
Proof.
  induction arr as [|v arr IH]; simpl; intros H; [lia|].
  destruct (Rle_dec v key) as [Hle|Hgt]; [|lra].
  apply IH. lia.
Qed.

(** A key inside the range of a sorted array falls between two
    consecutive samples, and the routine interpolates between them; every
    other sample lies on one side of the pair. *)
Lemma interp_at_bracket (dx : list R) (dy : list float64) (u : R) :
  StronglySorted Rle dx ->
  (2 <= length dx)%nat ->
  nth 0 dx 0 <= u -> u < nth (length dx - 1) dx 0 ->
  exists j,
    (S j < length dx)%nat
    /\ nth j dx 0 <= u < nth (S j) dx 0
    /\ interp_at dx dy u
       = lerp u (nth j dx 0) (nth (S j) dx 0) (nth j dy None) (nth (S j) dy None)
    /\ (forall X, In X dx -> X <= nth j dx 0 \/ nth (S j) dx 0 <= X).
Proof.
  intros Hs Hlen Hlo Hhi.
  set (c := search u dx).
  assert (Hc1 : (1 <= c)%nat).
  { unfold c. destruct dx as [|v dx]; [simpl in Hlen; lia|]. simpl in *.
    destruct (Rle_dec v u); [lia|lra]. }
  assert (Hc2 : (c < length dx)%nat).
  { pose proof (search_le u dx). fold c in H.
    destruct (Nat.eq_dec c (length dx)) as [E|E]; [|lia].
    assert (nth (length dx - 1) dx 0 <= u) by (apply search_below; fold c; lia).
    lra. }
  exists (c - 1)%nat. replace (S (c - 1)) with c by lia.
  split; [assumption|]. split; [|split].
  - split; [apply search_below; fold c; lia|now apply search_above].
  - unfold interp_at. fold c.
    destruct (Rlt_dec (nth (length dx - 1) dx 0) u); [lra|].
    destruct (Rlt_dec u (nth 0 dx 0)); [lra|].
    destruct (Nat.eqb_spec (c - 1) (length dx - 1)); [lia|].
    replace (S (c - 1)) with c by lia. reflexivity.
  - intros X HX. destruct (In_nth _ _ 0 HX) as (i & Hi & <-).
    destruct (Nat.le_gt_cases i (c - 1)).
    + left. apply StronglySorted_nth; [assumption|lia|lia].
    + right. apply StronglySorted_nth; [assumption|lia|lia].
Qed.

(** ** Slices and sorted lists *)

Lemma last1_cons {A : Type} (l : list A) (d : A) :
  l <> [] -> last1 l = [last l d].
Proof.
  intros Hl. unfold last1.
  rewrite (app_removelast_last d Hl) at 1 2.
  rewrite length_app, skipn_app. simpl length.
  replace (length (removelast l) + 1 - 1)%nat with (length (removelast l)) by lia.
  rewrite skipn_all, Nat.sub_diag. reflexivity.
Qed.

Lemma Forall2_nth_both {A B : Type} (Q : A -> B -> Prop)
      (l1 : list A) (l2 : list B) (d1 : A) (d2 : B) (i : nat) :
  Forall2 Q l1 l2 -> (i < length l1)%nat -> Q (nth i l1 d1) (nth i l2 d2).
Proof.
  intros H. revert i.
  induction H as [|x y l1 l2 Hxy H IH]; simpl; intros i Hi; [lia|].
  destruct i as [|i]; [assumption|]. apply IH. lia.
Qed.

Lemma Forall2_last {A B : Type} (Q : A -> B -> Prop)
      (l1 : list A) (l2 : list B) (d1 : A) (d2 : B) :
  Forall2 Q l1 l2 -> l1 <> [] -> Q (last l1 d1) (last l2 d2).
Proof.
  induction 1 as [|x y l1 l2 Hxy H IH]; intros Hne; [congruence|].
  destruct H as [|x' y' l1' l2' Hxy' H']; [assumption|].
  apply IH. discriminate.
Qed.

Lemma last_as_nth (l : list R) : last l 0 = nth (length l - 1) l 0.
Proof.
  induction l as [|x l IH]; [reflexivity|].
  destruct l as [|y l]; [reflexivity|].
  change (last (x :: y :: l) 0) with (last (y :: l) 0). rewrite IH.
  simpl. now rewrite Nat.sub_0_r.
Qed.

Lemma StronglySorted_last (l : list R) (x : R) :
  StronglySorted Rle l -> In x l -> x <= last l 0.
Proof.
  intros Hs Hx. destruct (In_nth _ _ 0 Hx) as (i & Hi & <-).
  rewrite last_as_nth.
  apply StronglySorted_nth; [assumption|lia|lia].
Qed.

Lemma StronglySorted_hd (l : list R) (x : R) :
  StronglySorted Rle l -> In x l -> hd 0 l <= x.
Proof.
  intros Hs Hx. destruct Hs as [|v l Hl Hv]; [contradiction|]. simpl.
  destruct Hx as [<-|Hx]; [lra|].
  rewrite Forall_forall in Hv. now apply Hv.
Qed.

Lemma StronglySorted_snoc (l : list R) (b : R) :
  StronglySorted Rle l -> Forall (fun x => x <= b) l ->
  StronglySorted Rle (l ++ [b]).
Proof.
  induction 1 as [|v l Hl IH Hv]; intros Hb; simpl.
  - constructor; constructor.
  - apply Forall_cons_iff in Hb. destruct Hb as [Hvb Hb].
    constructor; [now apply IH|].
    apply Forall_app. split; [assumption|]. now constructor.
Qed.

(** ** The sorted and wrapped reference *)

Lemma Forall2_map_both {A B C : Type} (Q : B -> C -> Prop)
      (f : A -> B) (g : A -> C) (l : list A) :
  (forall i, In i l -> Q (f i) (g i)) -> Forall2 Q (map f l) (map g l).
Proof.
  induction l as [|i l IH]; simpl; intros H; constructor.
  - apply H. now left.
  - apply IH. intros j Hj. apply H. now right.
Qed.

Section PeriodicReference.

Variables (xp : list R) (fp : list float64) (P : R).
Hypothesis HP : 0 < P.
Hypothesis Hne : (1 <= length xp)%nat.

Local Abbreviation xs := (map (fun v => np_mod v P) xp).
Local Abbreviation sx := (take xs 0 (argsort xs)).
Local Abbreviation sy := (take fp None (argsort xs)).

Lemma sorted_phases_length : length sx = length xp.
Proof. now rewrite take_length, argsort_length, length_map. Qed.

Lemma sorted_phases_nonempty : sx <> [].
Proof.
  intros E. pose proof sorted_phases_length as H. rewrite E in H.
  simpl in H. lia.
Qed.

Lemma periodic_xp_cons :
  periodic_xp xp P = (last sx 0 - P) :: sx ++ [hd 0 sx + P].
Proof.
  unfold periodic_xp, wrap_xp.
  rewrite (last1_cons sx 0 sorted_phases_nonempty).
  pose proof sorted_phases_nonempty as H.
  destruct sx as [|v l]; [congruence|]. reflexivity.
Qed.

Lemma periodic_fp_cons :
  periodic_fp xp fp P = last sy None :: sy ++ [hd None sy].
Proof.
  unfold periodic_fp, wrap_fp.
  assert (H : sy <> []).
  { intros E. pose proof (take_length fp None (argsort xs)) as H.
    rewrite E, argsort_length, length_map in H. simpl in H. lia. }
  rewrite (last1_cons sy None H).
  destruct sy as [|v l]; [congruence|]. reflexivity.
Qed.

Lemma sorted_phase_in (X : R) :
  In X sx <-> exists a, (a < length xp)%nat /\ X = np_mod (nth a xp 0) P.
Proof.
  unfold take. rewrite in_map_iff. split.
  - intros (a & <- & Ha). apply argsort_in in Ha. rewrite length_map in Ha.
    exists a. split; [assumption|].
    now apply (nth_map_in (fun v => np_mod v P)).
  - intros (a & Ha & ->). exists a. split.
    + now apply (nth_map_in (fun v => np_mod v P)).
    + apply argsort_in. now rewrite length_map.
Qed.

Lemma sorted_phases_range : Forall (fun X => 0 <= X < P) sx.
Proof.
  apply Forall_forall. intros X HX.
  apply sorted_phase_in in HX. destruct HX as (a & _ & ->).
  now apply np_mod_range.
Qed.

Lemma sorted_samples : Forall2 (sample_of xp fp P) sx sy.
Proof.
  unfold take. apply Forall2_map_both. intros a Ha.
  apply argsort_in in Ha. rewrite length_map in Ha.
  exists a, 0%Z. split; [assumption|]. split; [|reflexivity].
  rewrite (nth_map_in (fun v => np_mod v P) xp 0 0) by assumption. lra.
Qed.

Lemma sample_of_shift (X : R) (Y : float64) (k : Z) :
  sample_of xp fp P X Y -> sample_of xp fp P (X + IZR k * P) Y.
Proof.
  intros (a & m & Ha & -> & ->). exists a, (m + k)%Z.
  split; [assumption|]. split; [|reflexivity]. rewrite plus_IZR. lra.
Qed.

Lemma periodic_samples :
  Forall2 (sample_of xp fp P) (periodic_xp xp P) (periodic_fp xp fp P).
Proof.
  rewrite periodic_xp_cons, periodic_fp_cons.
  pose proof sorted_samples as H.
  constructor; [|apply Forall2_app; [assumption|constructor; [|constructor]]].
  - replace (last sx 0 - P) with (last sx 0 + IZR (-1) * P) by lra.
    apply sample_of_shift.
    apply Forall2_last; [assumption|apply sorted_phases_nonempty].
  - replace (hd 0 sx + P) with (hd 0 sx + IZR 1 * P) by lra.
    apply sample_of_shift.
    pose proof sorted_phases_nonempty as Hn.
    destruct H; [congruence|assumption].
Qed.

Lemma last_phase_range : 0 <= last sx 0 < P.
Proof.
  pose proof sorted_phases_range as H. rewrite Forall_forall in H.
  apply H. destruct (exists_last sorted_phases_nonempty) as (l & v & E).
  rewrite E, last_last. apply in_or_app. right. now left.
Qed.

Lemma first_phase_range : 0 <= hd 0 sx < P.
Proof.
  pose proof sorted_phases_range as H. rewrite Forall_forall in H.
  apply H. pose proof sorted_phases_nonempty as Hn.
  destruct sx; [congruence|]. now left.
Qed.

Lemma periodic_xp_sorted : StronglySorted Rle (periodic_xp xp P).
Proof.
  rewrite periodic_xp_cons.
  pose proof sorted_phases_range as Hr.
  pose proof last_phase_range as Hl. pose proof first_phase_range as Hf.
  constructor.
  - apply StronglySorted_snoc; [apply argsort_sorted|].
    revert Hr. apply Forall_impl. intros X HX. lra.
  - apply Forall_app. split.
    + revert Hr. apply Forall_impl. intros X HX. lra.
    + constructor; [lra|constructor].
Qed.

Lemma periodic_xp_in (X : R) :
  In X (periodic_xp xp P)
  <-> X = last sx 0 - P \/ In X sx \/ X = hd 0 sx + P.
Proof.
  rewrite periodic_xp_cons. simpl. rewrite in_app_iff. simpl.
  intuition (subst; auto).
Qed.

(** A target of the first period falls between two consecutive samples of
    the wrapped reference. *)
Lemma periodic_bracket (u : R) :
  0 <= u < P ->
  exists X0 X1 Y0 Y1,
    sample_of xp fp P X0 Y0 /\ sample_of xp fp P X1 Y1
    /\ X0 <= u < X1
    /\ interp_at (periodic_xp xp P) (periodic_fp xp fp P) u
       = lerp u X0 X1 Y0 Y1
    /\ (forall X, In X (periodic_xp xp P) -> X <= X0 \/ X1 <= X)
    /\ (forall a, (a < length xp)%nat -> np_mod (nth a xp 0) P <= X0 + P).
Proof.
  intros Hu.
  pose proof last_phase_range as Hl. pose proof first_phase_range as Hf.
  assert (Hlen : length (periodic_xp xp P) = S (S (length xp))).
  { rewrite periodic_xp_length. lia. }
  assert (H0 : nth 0 (periodic_xp xp P) 0 = last sx 0 - P).
  { now rewrite periodic_xp_cons. }
  assert (H1 : nth (length (periodic_xp xp P) - 1) (periodic_xp xp P) 0
               = hd 0 sx + P).
  { rewrite Hlen. replace (S (S (length xp)) - 1)%nat with (S (length xp)) by lia.
    rewrite periodic_xp_cons.
    change (nth (length xp) (sx ++ [hd 0 sx + P]) 0 = hd 0 sx + P).
    rewrite app_nth2 by (rewrite sorted_phases_length; lia).
    rewrite sorted_phases_length, Nat.sub_diag. reflexivity. }
  destruct (interp_at_bracket (periodic_xp xp P) (periodic_fp xp fp P) u)
    as (j & Hj & Hbr & Hint & Hside).
  - apply periodic_xp_sorted.
  - lia.
  - lra.
  - lra.
  - exists (nth j (periodic_xp xp P) 0), (nth (S j) (periodic_xp xp P) 0),
      (nth j (periodic_fp xp fp P) None), (nth (S j) (periodic_fp xp fp P) None).
    split; [|split; [|split; [|split; [|split]]]]; try assumption.
    + apply Forall2_nth_both; [apply periodic_samples|lia].
    + apply Forall2_nth_both; [apply periodic_samples|lia].
    + intros a Ha.
      assert (Hfirst : last sx 0 - P <= nth j (periodic_xp xp P) 0).
      { rewrite <- H0. apply StronglySorted_nth;
          [apply periodic_xp_sorted|lia|lia]. }
      assert (np_mod (nth a xp 0) P <= last sx 0).
      { apply StronglySorted_last; [apply argsort_sorted|].
        apply sorted_phase_in. now exists a. }
      lra.
Qed.

Lemma phase_in_periodic (a : nat) :
  (a < length xp)%nat -> In (np_mod (nth a xp 0) P) (periodic_xp xp P).
Proof.
  intros Ha. apply periodic_xp_in. right. left.
  apply sorted_phase_in. now exists a.
Qed.

Lemma least_phase_in_periodic (c : nat) :
  (c < length xp)%nat ->
  (forall a, (a < length xp)%nat ->
             np_mod (nth c xp 0) P <= np_mod (nth a xp 0) P) ->
  In (np_mod (nth c xp 0) P + P) (periodic_xp xp P).
Proof.
  intros Hc Hleast. apply periodic_xp_in. right. right. f_equal.
  assert (Hin : In (hd 0 sx) sx).
  { pose proof sorted_phases_nonempty as Hn.
    destruct sx; [congruence|]. now left. }
  apply sorted_phase_in in Hin. destruct Hin as (a & Ha & Hhd).
  assert (hd 0 sx <= np_mod (nth c xp 0) P).
  { apply StronglySorted_hd; [apply argsort_sorted|].
    apply sorted_phase_in. now exists c. }
  pose proof (Hleast a Ha). lra.
Qed.

End PeriodicReference.

(** ** The reference of [get_RVs]: a uniform grid over one period *)

Section UniformGrid.

Variables (T t0 : R) (NT : nat) (rv : list R).
Hypothesis HT : 0 < T.
Hypothesis HNT : (2 <= NT)%nat.
Hypothesis Hrv : length rv = NT.

Local Abbreviation t := (linspace t0 (t0 + T) NT).
Local Abbreviation RV := (map Some rv : list float64).
Local Abbreviation h := (T / INR (NT - 1)).

Lemma grid_step_positive : 0 < h.
Proof.
  apply Rdiv_lt_0_compat; [assumption|]. apply lt_0_INR. lia.
Qed.

Lemma grid_period : T = IZR (Z.of_nat (NT - 1)) * h.
Proof.
  rewrite <- INR_IZR_INZ.
  assert (INR (NT - 1) <> 0) by (apply not_0_INR; lia).
  field. assumption.
Qed.

Lemma grid_time (a : nat) :
  (a < NT)%nat -> nth a t 0 = t0 + IZR (Z.of_nat a) * h.
Proof.
  intros Ha. rewrite linspace_nth by assumption. rewrite <- INR_IZR_INZ.
  replace (t0 + T - t0) with T by lra. reflexivity.
Qed.

(** Every entry of the wrapped reference is a grid sample moved by whole
    periods. *)
Lemma grid_sample (X : R) (Y : float64) :
  sample_of t RV T X Y ->
  exists (a : nat) (m : Z),
    (a < NT)%nat /\ X = t0 + IZR (Z.of_nat a) * h + IZR m * T
    /\ Y = Some (nth a rv 0).
Proof.
  intros (a & m & Ha & -> & ->). rewrite linspace_length in Ha.
  exists a, (Z.sub m (Zfloor (nth a t 0 / T))). split; [assumption|]. split.
  - pose proof (np_mod_congruent (nth a t 0) T) as Hc.
    rewrite minus_IZR. rewrite <- (grid_time a Ha). lra.
  - apply (nth_map_in Some). lia.
Qed.

(** When the curve closes, the last sample can be read as the first one. *)
Lemma grid_sample_closed (X : R) (Y : float64) :
  nth 0 rv 0 = nth (NT - 1) rv 0 ->
  sample_of t RV T X Y ->
  exists (a : nat) (m : Z),
    (a < NT - 1)%nat /\ X = t0 + IZR (Z.of_nat a) * h + IZR m * T
    /\ Y = Some (nth a rv 0).
Proof.
  intros Hclosed HS. destruct (grid_sample X Y HS) as (a & m & Ha & HX & HY).
  destruct (Nat.eq_dec a (NT - 1)) as [E|E].
  - exists 0%nat, (m + 1)%Z. split; [lia|]. split.
    + rewrite HX, E, plus_IZR. pose proof grid_period as Hper.
      simpl IZR. lra.
    + rewrite HY, E. now rewrite Hclosed.
  - exists a, m. split; [lia|]. now split.
Qed.

(** Two grid phases differ by a whole number of steps. *)
Lemma grid_phase_difference (a b : nat) :
  (a < NT)%nat -> (b < NT)%nat ->
  exists z : Z, np_mod (nth a t 0) T - np_mod (nth b t 0) T = IZR z * h.
Proof.
  intros Ha Hb.
  pose proof (np_mod_congruent (nth a t 0) T) as Hca.
  pose proof (np_mod_congruent (nth b t 0) T) as Hcb.
  rewrite (grid_time a Ha) in Hca at 1. rewrite (grid_time b Hb) in Hcb at 1.
  set (fa := Zfloor (nth a t 0 / T)) in *.
  set (fb := Zfloor (nth b t 0 / T)) in *.
  exists (Z.of_nat a - Z.of_nat b - (fa - fb) * Z.of_nat (NT - 1))%Z.
  rewrite !minus_IZR, mult_IZR, minus_IZR.
  set (za := IZR fa) in *. set (zb := IZR fb) in *.
  assert (Hper : za * T - zb * T = (za - zb) * IZR (Z.of_nat (NT - 1)) * h).
  { pose proof grid_period as Hper.
    set (n1 := IZR (Z.of_nat (NT - 1))) in *. set (step := h) in *.
    rewrite Hper. ring. }
  lra.
Qed.

Lemma grid_step_le_period : h <= T.
Proof.
  pose proof grid_step_positive as Hh. pose proof grid_period as Hper.
  assert (1 <= IZR (Z.of_nat (NT - 1))) by (apply IZR_le; lia).
  assert (1 * h <= IZR (Z.of_nat (NT - 1)) * h)
    by (apply Rmult_le_compat_r; lra).
  lra.
Qed.

(** The sample that follows sample [a] on the circle of phases. *)
Lemma grid_next_phase (a : nat) :
  (a < NT)%nat ->
  exists (a' : nat) (m : Z),
    (a' < NT)%nat
    /\ np_mod (nth a t 0) T + h - np_mod (nth a' t 0) T = IZR m * T.
Proof.
  intros Ha.
  assert (Hnext : exists a' (d : Z), (a' < NT)%nat
            /\ nth a' t 0 = nth a t 0 + h + IZR d * T).
  { destruct (Nat.eq_dec a (NT - 1)) as [E|E].
    - exists 1%nat, (-1)%Z. split; [lia|].
      rewrite (grid_time 1), (grid_time a) by lia. rewrite E.
      pose proof grid_period as Hper. simpl IZR. lra.
    - exists (S a), 0%Z. split; [lia|].
      rewrite (grid_time (S a)), (grid_time a) by lia.
      rewrite Nat2Z.inj_succ, succ_IZR. simpl IZR. lra. }
  destruct Hnext as (a' & d & Ha' & Ht).
  pose proof (np_mod_congruent (nth a t 0) T) as Hca.
  pose proof (np_mod_congruent (nth a' t 0) T) as Hca'.
  set (fa := Zfloor (nth a t 0 / T)) in *.
  set (fa' := Zfloor (nth a' t 0 / T)) in *.
  exists a', (fa' - fa - d)%Z. split; [assumption|].
  rewrite !minus_IZR. lra.
Qed.

(** The two samples around a target are one step apart. *)
Lemma grid_bracket_step (X0 X1 : R) (Y0 Y1 : float64) (u : R) :
  0 <= u < T ->
  sample_of t RV T X0 Y0 -> sample_of t RV T X1 Y1 ->
  X0 <= u < X1 ->
  (forall X, In X (periodic_xp t T) -> X <= X0 \/ X1 <= X) ->
  (forall a, (a < length t)%nat -> np_mod (nth a t 0) T <= X0 + T) ->
  X1 = X0 + h.
Proof.
  intros Hu HS0 HS1 Hbr Hside Hmax.
  pose proof grid_step_positive as Hh.
  pose proof grid_step_le_period as HhT.
  pose proof grid_period as Hper.
  assert (Hlen : length t = NT) by apply linspace_length.
  destruct HS0 as (a & m0 & Ha & HX0 & _).
  destruct HS1 as (b & m1 & Hb & HX1 & _).
  rewrite Hlen in Ha, Hb.
  (* at least one step *)
  assert (Hge : h <= X1 - X0).
  { destruct (grid_phase_difference b a Hb Ha) as (z & Hz).
    assert (HD : X1 - X0 = IZR (z + (m1 - m0) * Z.of_nat (NT - 1)) * h).
    { rewrite plus_IZR, mult_IZR, minus_IZR.
      set (n1 := IZR (Z.of_nat (NT - 1))) in *. set (step := h) in *.
      replace ((IZR z + (IZR m1 - IZR m0) * n1) * step)
        with (IZR z * step + (IZR m1 - IZR m0) * (n1 * step)) by ring.
      rewrite <- Hper. lra. }
    rewrite HD. apply positive_multiple; [assumption|]. rewrite <- HD. lra. }
  (* at most one step: the next phase is in the wrapped reference *)
  assert (Hin : In (X0 + h) (periodic_xp t T)).
  { destruct (grid_next_phase a Ha) as (a' & m & Ha' & Hm).
    pose proof (np_mod_range (nth a' t 0) T HT) as Hr'.
    pose proof (np_mod_range (nth 0 t 0) T HT) as Hr0.
    pose proof (Hmax 0%nat ltac:(lia)) as Hmax0.
    pose proof (Hmax a' ltac:(lia)) as Hmax'.
    set (phi' := np_mod (nth a' t 0) T) in *.
    assert (HX : X0 + h - phi' = IZR (m + m0) * T).
    { rewrite plus_IZR. lra. }
    assert (Hm1 : (m + m0 < 2)%Z).
    { apply lt_IZR. apply (Rmult_lt_reg_r T); [assumption|]. lra. }
    assert (Hm2 : (-2 < m + m0)%Z).
    { apply lt_IZR. apply (Rmult_lt_reg_r T); [assumption|]. lra. }
    assert (Hcases : (m + m0 = -1 \/ m + m0 = 0 \/ m + m0 = 1)%Z) by lia.
    destruct Hcases as [E|[E|E]]; rewrite E in HX; simpl IZR in HX.
    - lra.
    - replace (X0 + h) with phi' by lra.
      apply phase_in_periodic; lia.
    - replace (X0 + h) with (phi' + T) by lra.
      apply least_phase_in_periodic; [lia|lia|].
      intros c Hc. rewrite Hlen in Hc. fold phi'.
      destruct (Rle_dec phi' (np_mod (nth c t 0) T)) as [Hle|Hgt];
        [assumption|exfalso].
      pose proof (np_mod_range (nth c t 0) T HT) as Hrc.
      destruct (grid_phase_difference a' c Ha' Hc) as (z & Hz).
      fold phi' in Hz.
      assert (h <= IZR z * h) by (apply positive_multiple; lra).
      lra. }
  destruct (Hside _ Hin) as [Hl|Hr]; lra.
Qed.

(** On a closed curve the routine returns the interpolation between the
    two grid samples around the target reduced modulo the period. *)
Lemma grid_interp_at (x : R) :
  nth 0 rv 0 = nth (NT - 1) rv 0 ->
  interp_at (periodic_xp t T) (periodic_fp t RV T) (np_mod x T)
  = Some (periodic_lerp T t0 NT rv x)
  /\ (S (Z.to_nat (Zfloor (np_mod (x - t0) T / h))) < NT)%nat.
Proof.
  intros Hclosed.
  pose proof grid_step_positive as Hh.
  pose proof grid_period as Hper.
  assert (Hlen : length t = NT) by apply linspace_length.
  pose proof (np_mod_range x T HT) as Hu.
  destruct (periodic_bracket t RV T HT ltac:(lia) (np_mod x T) Hu)
    as (X0 & X1 & Y0 & Y1 & HS0 & HS1 & Hbr & Hint & Hside & Hmax).
  pose proof (grid_bracket_step X0 X1 Y0 Y1 _ Hu HS0 HS1 Hbr Hside Hmax)
    as Hstep.
  destruct (grid_sample_closed X0 Y0 Hclosed HS0) as (a & m0 & Ha & HX0 & HY0).
  destruct (grid_sample_closed X1 Y1 Hclosed HS1) as (b & m1 & Hb & HX1 & HY1).
  (* the sample after [a] *)
  assert (HY1' : Y1 = Some (nth (S a) rv 0)).
  { assert (HZ : (Z.of_nat b - Z.of_nat a - 1
                  + (m1 - m0) * Z.of_nat (NT - 1) = 0)%Z).
    { apply eq_IZR. apply (Rmult_eq_reg_r h); [|lra].
      rewrite plus_IZR, mult_IZR, !minus_IZR.
      set (n1 := IZR (Z.of_nat (NT - 1))) in *. set (step := h) in *.
      replace ((IZR (Z.of_nat b) - IZR (Z.of_nat a) - 1
                + (IZR m1 - IZR m0) * n1) * step)
        with (IZR (Z.of_nat b) * step - IZR (Z.of_nat a) * step - step
              + (IZR m1 - IZR m0) * (n1 * step)) by ring.
      rewrite <- Hper. lra. }
    assert (Hd : (m1 - m0 = 0 \/ m1 - m0 = 1)%Z) by nia.
    destruct Hd as [Hd|Hd]; rewrite Hd in HZ.
    - assert (b = S a) by lia. now subst b.
    - assert (b = 0%nat) by lia. assert (S a = (NT - 1)%nat) by lia.
      subst b. rewrite HY1. now rewrite H0, Hclosed. }
  (* the reduced time *)
  set (u := np_mod x T) in *.
  set (v := u - X0 + IZR (Z.of_nat a) * h).
  assert (Hv1 : IZR (Z.of_nat a) * h <= v < IZR (Z.of_nat a) * h + h)
    by (unfold v; lra).
  assert (Hv2 : 0 <= v < T).
  { assert (0 <= IZR (Z.of_nat a)) by (apply IZR_le; lia).
    assert (0 <= IZR (Z.of_nat a) * h) by (apply Rmult_le_pos; lra).
    assert (IZR (Z.of_nat a) + 1 <= IZR (Z.of_nat (NT - 1))).
    { rewrite <- plus_IZR. apply IZR_le. lia. }
    assert ((IZR (Z.of_nat a) + 1) * h <= IZR (Z.of_nat (NT - 1)) * h)
      by (apply Rmult_le_compat_r; lra).
    lra. }
  assert (Hv : np_mod (x - t0) T = v).
  { apply (np_mod_unique _ _ _ (Zfloor (x / T) + m0)%Z); [assumption..|].
    pose proof (np_mod_congruent x T) as Hc. fold u in Hc.
    rewrite plus_IZR. unfold v. clearbody u. clear - HX0 Hc. lra. }
  assert (Hk : Zfloor (v / h) = Z.of_nat a).
  { apply Zfloor_eq. split.
    - apply (Rmult_le_reg_r h); [assumption|].
      rewrite quotient_times_step by assumption. lra.
    - apply (Rmult_lt_reg_r h); [assumption|].
      rewrite quotient_times_step by assumption. lra. }
  rewrite Hv, Hk, Nat2Z.id. split; [|lia].
  rewrite Hint, HY0, HY1'. unfold lerp, periodic_lerp.
  rewrite Hv, Hk, Nat2Z.id. f_equal.
  rewrite Hstep, (INR_IZR_INZ a). unfold v.
  set (step := h) in *. field. lra.
Qed.

(** A target that is a grid time gets the value of a sample with the same
    phase: the sample itself, or the other end of the grid. *)
Lemma grid_interp_at_sample (i : nat) :
  (i < NT)%nat ->
  exists a,
    interp_at (periodic_xp t T) (periodic_fp t RV T) (np_mod (nth i t 0) T)
    = Some (nth a rv 0)
    /\ (a = i \/ (a = 0%nat /\ i = (NT - 1)%nat)
              \/ (a = (NT - 1)%nat /\ i = 0%nat)).
Proof.
  intros Hi.
  pose proof grid_step_positive as Hh.
  pose proof grid_period as Hper.
  assert (Hlen : length t = NT) by apply linspace_length.
  pose proof (np_mod_range (nth i t 0) T HT) as Hu.
  destruct (periodic_bracket t RV T HT ltac:(lia) _ Hu)
    as (X0 & X1 & Y0 & Y1 & HS0 & HS1 & Hbr & Hint & Hside & Hmax).
  assert (HX0 : X0 = np_mod (nth i t 0) T).
  { destruct (Hside (np_mod (nth i t 0) T)) as [Hl|Hr]; [|lra|lra].
    apply phase_in_periodic; lia. }
  destruct (grid_sample X0 Y0 HS0) as (a & m0 & Ha & HX0' & HY0).
  destruct (grid_sample X1 Y1 HS1) as (b & m1 & Hb & _ & HY1).
  exists a. split.
  - rewrite Hint, HY0, HY1. unfold lerp. f_equal. rewrite <- HX0. lra.
  - pose proof (np_mod_congruent (nth i t 0) T) as Hc.
    rewrite (grid_time i Hi) in Hc at 1.
    set (fi := Zfloor (nth i t 0 / T)) in *.
    assert (HZ : (Z.of_nat a - Z.of_nat i
                  + (m0 + fi) * Z.of_nat (NT - 1) = 0)%Z).
    { apply eq_IZR. apply (Rmult_eq_reg_r h); [|lra].
      rewrite plus_IZR, mult_IZR, minus_IZR, plus_IZR.
      set (n1 := IZR (Z.of_nat (NT - 1))) in *. set (step := h) in *.
      replace ((IZR (Z.of_nat a) - IZR (Z.of_nat i)
                + (IZR m0 + IZR fi) * n1) * step)
        with (IZR (Z.of_nat a) * step - IZR (Z.of_nat i) * step
              + (IZR m0 + IZR fi) * (n1 * step)) by ring.
      rewrite <- Hper. lra. }
    assert (Hd : (m0 + fi = 0 \/ m0 + fi = 1 \/ m0 + fi = -1)%Z) by nia.
    destruct Hd as [Hd|[Hd|Hd]]; rewrite Hd in HZ; lia.
Qed.

End UniformGrid.

(** ** The resampler *)

Lemma one_period_shape (newton : (R -> R) -> R -> result R)
      (K T t0 w e a VZ : R) (NT : nat) (t : list R) (RV : list float64) :
  one_period newton K T t0 w e a VZ NT = Ok (t, RV) ->
  t = linspace t0 (t0 + T) NT /\ length RV = NT.
Proof.
  unfold one_period, mean_anomaly. intros H.
  destruct (Req_dec_T T 0) as [E|_]; [discriminate|]. simpl in H.
  destruct (eccentric_anomaly newton e _) as [E|] eqn:HE; [|discriminate].
  simpl in H. injection H as <- <-. split; [reflexivity|].
  unfold radial_velocities, radius.
  rewrite length_map, shift_second_half_length, true_anomaly_length, length_map.
  unfold eccentric_anomaly in HE.
  rewrite (comprehension_length _ _ _ HE).
  now rewrite length_map, linspace_length.
Qed.

(** The resampling of a finite reference over a positive period. *)
Lemma get_RVs_resampled (newton : (R -> R) -> R -> result R)
      (K T t0 w e a VZ start end_ : R) (NT N : nat)
      (t : list R) (rv : list R) :
  0 < T -> (2 <= NT)%nat ->
  one_period newton K T t0 w e a VZ NT = Ok (t, map Some rv) ->
  t = linspace t0 (t0 + T) NT /\ length rv = NT
  /\ get_RVs newton K T t0 w e a VZ start end_ NT N
     = Ok (linspace start end_ N,
           map (fun x => interp_at (periodic_xp t T)
                                   (periodic_fp t (map Some rv) T)
                                   (np_mod x T))
               (linspace start end_ N)).
Proof.
  intros HT HNT Hone.
  destruct (one_period_shape _ _ _ _ _ _ _ _ _ _ _ Hone) as [Ht Hlen].
  rewrite length_map in Hlen. split; [assumption|]. split; [assumption|].
  unfold get_RVs. rewrite Hone. simpl.
  rewrite interp_unfold.
  - rewrite (Rabs_pos_eq T) by lra. reflexivity.
  - lra.
  - now rewrite Ht, linspace_length, length_map.
  - rewrite Ht, linspace_length. lia.
Qed.

(** C4. When the one-period curve is finite and closes up (its first and
    last sample carry the same velocity), the resampled velocity at every
    target time is the linear interpolation between the two samples of
    the uniform grid from [t0] to [t0+T] around the target time reduced
    modulo [T] relative to [t0]. *)
Theorem resampled_value_is_periodic_lerp
        (newton : (R -> R) -> R -> result R)
        (K T t0 w e a VZ start end_ : R) (NT N : nat)
        (t : list R) (rv : list R) :
  0 < T -> (2 <= NT)%nat ->
  one_period newton K T t0 w e a VZ NT = Ok (t, map Some rv) ->
  nth 0 rv 0 = nth (NT - 1) rv 0 ->
  exists RVs,
    get_RVs newton K T t0 w e a VZ start end_ NT N
    = Ok (linspace start end_ N, RVs)
    /\ length RVs = N
    /\ forall i, (i < N)%nat ->
         let ts_i := nth i (linspace start end_ N) 0 in
         nth i RVs None = Some (periodic_lerp T t0 NT rv ts_i)
         /\ (S (Z.to_nat (Zfloor (np_mod (ts_i - t0) T / (T / INR (NT - 1)))))
             < NT)%nat.
Proof.
  intros HT HNT Hone Hclosed.
  destruct (get_RVs_resampled newton K T t0 w e a VZ start end_ NT N t rv
              HT HNT Hone) as (Ht & Hlen & Hget).
  eexists. split; [exact Hget|]. split.
  - now rewrite length_map, linspace_length.
  - intros i Hi ts_i.
    rewrite nth_map_float by (now rewrite linspace_length).
    fold ts_i. rewrite Ht.
    apply grid_interp_at; assumption.
Qed.

(** C5. Resampling the one-period grid onto itself ([start = t0],
    [end = t0+T], [N = NT]) returns the grid times and, for a finite
    curve, the reference velocities: every sample strictly inside the
    grid is reproduced exactly, each end sample gets the velocity of one
    of the two ends (they share a phase), and the whole sequence is
    reproduced when the curve closes up. *)
Theorem resample_round_trip
        (newton : (R -> R) -> R -> result R)
        (K T t0 w e a VZ : R) (NT : nat) (t : list R) (rv : list R) :
  0 < T -> (2 <= NT)%nat ->
  one_period newton K T t0 w e a VZ NT = Ok (t, map Some rv) ->
  exists RVs,
    get_RVs newton K T t0 w e a VZ t0 (t0 + T) NT NT = Ok (t, RVs)
    /\ length RVs = NT
    /\ (forall i, (0 < i < NT - 1)%nat -> nth i RVs None = Some (nth i rv 0))
    /\ (forall i, i = 0%nat \/ i = (NT - 1)%nat ->
          nth i RVs None = Some (nth 0 rv 0)
          \/ nth i RVs None = Some (nth (NT - 1) rv 0))
    /\ (nth 0 rv 0 = nth (NT - 1) rv 0 -> RVs = map Some rv).
Proof.
  intros HT HNT Hone.
  destruct (get_RVs_resampled newton K T t0 w e a VZ t0 (t0 + T) NT NT t rv
              HT HNT Hone) as (Ht & Hlen & Hget).
  rewrite <- Ht in Hget.
  eexists. split; [exact Hget|].
  assert (Hnth : forall i, (i < NT)%nat ->
            exists b,
              nth i (map (fun x => interp_at (periodic_xp t T)
                                     (periodic_fp t (map Some rv) T)
                                     (np_mod x T)) t) None
              = Some (nth b rv 0)
              /\ (b = i \/ (b = 0%nat /\ i = (NT - 1)%nat)
                        \/ (b = (NT - 1)%nat /\ i = 0%nat))).
  { intros i Hi.
    rewrite nth_map_float by (now rewrite Ht, linspace_length).
    rewrite Ht. now apply grid_interp_at_sample. }
  assert (Hlen' : length (map (fun x => interp_at (periodic_xp t T)
                                     (periodic_fp t (map Some rv) T)
                                     (np_mod x T)) t) = NT).
  { now rewrite length_map, Ht, linspace_length. }
  split; [assumption|]. split; [|split].
  - intros i Hi. destruct (Hnth i ltac:(lia)) as (b & -> & Hb).
    do 2 f_equal. lia.
  - intros i Hi. destruct (Hnth i ltac:(lia)) as (b & -> & Hb).
    destruct Hb as [->|[[-> _]|[-> _]]]; [destruct Hi as [->| ->]|..]; auto.
  - intros Hclosed. apply (nth_ext _ _ None None).
    + transitivity NT; [exact Hlen'|now rewrite length_map].
    + intros i Hi.
      assert (Hi' : (i < NT)%nat)
        by exact (eq_ind _ (fun n => (i < n)%nat) Hi _ Hlen').
      destruct (Hnth i Hi') as (b & Hval & Hb).
      transitivity (Some (nth b rv 0)); [exact Hval|].
      rewrite (nth_map_in Some rv None 0) by lia. f_equal.
      destruct Hb as [->|[[-> ->]|[-> ->]]]; auto.
Qed.

(** ** A run of the first stages on three samples *)

Lemma one_period_unfold (newton : (R -> R) -> R -> result R)
      (K T t0 w e a VZ : R) (NT : nat) :
  T <> 0 ->
  one_period newton K T t0 w e a VZ NT
  = (E <- eccentric_anomaly newton e (grid_anomalies T t0 NT) ;;
     Ok (linspace t0 (t0 + T) NT,
         radial_velocities VZ K w e
           (shift_second_half NT (true_anomaly a e (radius a e E))))).
Proof.
  intros HT. unfold one_period, mean_anomaly.
  destruct (Req_dec_T T 0) as [E|_]; [contradiction|]. reflexivity.
Qed.

Lemma true_anomaly_at_value (a e rk x : R) :
  rk <> 0 -> e <> 0 -> (a * (1 - e ^ 2) / rk - 1) / e = x -> -1 <= x <= 1 ->
  true_anomaly_at a e rk = Some (acos x).
Proof.
  intros Hrk He Hx Hrange. unfold true_anomaly_at, np_div, fbind.
  destruct (Req_dec_T rk 0) as [E|_]; [contradiction|].
  destruct (Req_dec_T e 0) as [E|_]; [contradiction|].
  rewrite Hx. unfold np_arccos.
  destruct (Rle_dec (-1) x); [|lra].
  destruct (Rle_dec x 1); [|lra]. reflexivity.
Qed.

Lemma acos_minus_one : acos (-1) = PI.
Proof.
  replace (-1) with (Ropp 1) by lra. rewrite acos_opp, acos_1. lra.
Qed.

Lemma one_period_three :
  one_period one_step_solver 1 2 0 0 (1 / 2) 1 0 3
  = Ok (linspace 0 (0 + 2) 3, map Some [3 / 2; -1 / 2; 3 / 2]).
Proof.
  rewrite one_period_unfold by lra.
  rewrite grid_anomalies_three by lra.
  unfold eccentric_anomaly. cbn [comprehension].
  rewrite (one_step_solver_root (1 / 2) 0 sin_0).
  rewrite (one_step_solver_root (1 / 2) PI sin_PI).
  rewrite (one_step_solver_root (1 / 2) (2 * PI) sin_2PI).
  cbn [bind]. do 2 f_equal.
  unfold radius, true_anomaly. cbn [map].
  rewrite cos_0, cos_PI, cos_2PI.
  rewrite (true_anomaly_at_value 1 (1 / 2) (1 * (1 - 1 / 2 * 1)) 1)
    by (try lra; field).
  rewrite (true_anomaly_at_value 1 (1 / 2) (1 * (1 - 1 / 2 * -1)) (-1))
    by (try lra; field).
  rewrite acos_1, acos_minus_one.
  unfold shift_second_half, radial_velocities.
  change (slice_start (half_index 3) (length [Some 0; Some PI; Some 0]))
    with 1%nat.
  cbn [firstn skipn app map option_map].
  unfold reflect, vr.
  replace (0 * (PI / 180) + 0) with 0 by lra.
  replace (0 * (PI / 180) + (PI + 2 * (PI - PI))) with PI by lra.
  replace (0 * (PI / 180) + (0 + 2 * (PI - 0))) with (2 * PI) by lra.
  replace (0 * (PI / 180)) with 0 by lra.
  rewrite cos_0, cos_PI, cos_2PI.
  repeat (apply f_equal2; [f_equal; lra|]). reflexivity.
Qed.

Lemma resampled_value_is_periodic_lerp_witness :
  exists RVs,
    get_RVs one_step_solver 1 2 0 0 (1 / 2) 1 0 0 3 3 2
    = Ok (linspace 0 3 2, RVs)
    /\ length RVs = 2%nat
    /\ forall i, (i < 2)%nat ->
         let ts_i := nth i (linspace 0 3 2) 0 in
         nth i RVs None
         = Some (periodic_lerp 2 0 3 [3 / 2; -1 / 2; 3 / 2] ts_i)
         /\ (S (Z.to_nat (Zfloor (np_mod (ts_i - 0) 2 / (2 / INR (3 - 1)))))
             < 3)%nat.
Proof.
  apply (resampled_value_is_periodic_lerp one_step_solver
           1 2 0 0 (1 / 2) 1 0 0 3 3 2
           (linspace 0 (0 + 2) 3) [3 / 2; -1 / 2; 3 / 2]).
  - lra.
  - lia.
  - apply one_period_three.
  - reflexivity.
Defined.

Lemma resample_round_trip_witness :
  exists RVs,
    get_RVs one_step_solver 1 2 0 0 (1 / 2) 1 0 0 (0 + 2) 3 3
    = Ok (linspace 0 (0 + 2) 3, RVs)
    /\ length RVs = 3%nat
    /\ (forall i, (0 < i < 3 - 1)%nat ->
          nth i RVs None = Some (nth i [3 / 2; -1 / 2; 3 / 2] 0))
    /\ (forall i, i = 0%nat \/ i = (3 - 1)%nat ->
          nth i RVs None = Some (nth 0 [3 / 2; -1 / 2; 3 / 2] 0)
          \/ nth i RVs None = Some (nth (3 - 1) [3 / 2; -1 / 2; 3 / 2] 0))
    /\ (nth 0 [3 / 2; -1 / 2; 3 / 2] 0 = nth (3 - 1) [3 / 2; -1 / 2; 3 / 2] 0 ->
        RVs = map Some [3 / 2; -1 / 2; 3 / 2]).
Proof.
  apply (resample_round_trip one_step_solver 1 2 0 0 (1 / 2) 1 0 3
           (linspace 0 (0 + 2) 3) [3 / 2; -1 / 2; 3 / 2]).
  - lra.
  - lia.
  - apply one_period_three.
Defined.

(** ** Periodicity of the resampled curve *)

Lemma np_mod_add_period (x T : R) (k : Z) :
  0 < T -> np_mod (x + IZR k * T) T = np_mod x T.
Proof.
  intros HT.
  apply (np_mod_unique _ _ _ (Zfloor (x / T) + k)%Z);
    [assumption|now apply np_mod_range|].
  pose proof (np_mod_congruent x T) as Hc. rewrite plus_IZR. lra.
Qed.

Lemma linspace_shift (start stop c : R) (num : nat) :
  linspace (start + c) (stop + c) num
  = map (fun x => x + c) (linspace start stop num).
Proof.
  apply (nth_ext _ _ 0 0).
  - now rewrite length_map, !linspace_length.
  - intros i Hi. rewrite linspace_length in Hi.
    rewrite (nth_map_in _ _ 0 0) by (now rewrite linspace_length).
    rewrite !linspace_nth by assumption.
    replace (stop + c - (start + c)) with (stop - start) by lra. lra.
Qed.

Lemma interp_shift (x xp : list R) (fp : list float64) (T : R) (k : Z) :
  0 < T ->
  interp (map (fun v => v + IZR k * T) x) xp fp T = interp x xp fp T.
Proof.
  intros HT. unfold interp.
  destruct (Req_dec_T T 0) as [E|_]; [reflexivity|].
  destruct (negb (length xp =? length fp)%nat); [reflexivity|].
  rewrite map_map. f_equal.
  apply map_ext. intros v. rewrite (Rabs_pos_eq T) by lra.
  now apply np_mod_add_period.
Qed.

(** X1. Periodicity: moving the requested span by a whole number of
    periods moves the times and leaves the resampled velocities
    unchanged. *)
Theorem resampled_curve_periodic (newton : (R -> R) -> R -> result R)
        (K T t0 w e a VZ start end_ : R) (NT N : nat) (k : Z) :
  0 < T ->
  get_RVs newton K T t0 w e a VZ (start + IZR k * T) (end_ + IZR k * T) NT N
  = (p <- get_RVs newton K T t0 w e a VZ start end_ NT N ;;
     Ok (map (fun x => x + IZR k * T) (fst p), snd p)).
Proof.
  intros HT. unfold get_RVs.
  destruct (one_period newton K T t0 w e a VZ NT) as [[t RV]|err];
    [|reflexivity].
  cbn [bind]. rewrite linspace_shift, interp_shift by assumption.
  destruct (interp (linspace start end_ N) t RV T) as [RVs|err];
    reflexivity.
Qed.

Lemma resampled_curve_periodic_witness :
  get_RVs one_step_solver 1 2 0 0 (1 / 2) 1 0
          (0 + IZR 3 * 2) (1 + IZR 3 * 2) 3 2
  = (p <- get_RVs one_step_solver 1 2 0 0 (1 / 2) 1 0 0 1 3 2 ;;
     Ok (map (fun x => x + IZR 3 * 2) (fst p), snd p)).
Proof.
  apply (resampled_curve_periodic one_step_solver 1 2 0 0 (1 / 2) 1 0 0 1 3 2 3).
  lra.
Defined.

(** * Further properties of the code *)

(** ** The orbital parameter [K] *)

Lemma K_value (m1 m2 n a I e : R) :
  m1 + m2 <> 0 -> -1 < e < 1 ->
  K m1 m2 n a I e
  = Ok (Some (m2 / (m1 + m2) * n * a * sin I / sqrt (1 - e ^ 2))).
Proof.
  intros Hm He. unfold K.
  destruct (Req_dec_T (m1 + m2) 0); [contradiction|].
  assert (Hpos : 0 < 1 - e ^ 2) by nra.
  unfold np_sqrt. destruct (Rle_dec 0 (1 - e ^ 2)); [|lra].
  unfold fbind, np_div.
  destruct (Req_dec_T (sqrt (1 - e ^ 2)) 0) as [E|_]; [|reflexivity].
  apply sqrt_eq_0 in E; lra.
Qed.

(** X2. [K] raises [ZeroDivisionError] exactly when [m1 + m2 = 0];
    otherwise it returns the value of Eq. 66 when [-1 < e < 1] and a
    non-finite value when [e <= -1] or [1 <= e]. *)
Theorem K_outcome (m1 m2 n a I e : R) :
  (m1 + m2 = 0 <-> K m1 m2 n a I e = Raise ZeroDivisionError)
  /\ (m1 + m2 <> 0 -> -1 < e < 1 ->
      K m1 m2 n a I e
      = Ok (Some (m2 / (m1 + m2) * n * a * sin I / sqrt (1 - e ^ 2))))
  /\ (m1 + m2 <> 0 -> e <= -1 \/ 1 <= e -> K m1 m2 n a I e = Ok None).
Proof.
  split; [|split].
  - unfold K. destruct (Req_dec_T (m1 + m2) 0) as [Hm|Hm].
    + split; [reflexivity|intros _; assumption].
    + split; [contradiction|discriminate].
  - apply K_value.
  - intros Hm He. unfold K.
    destruct (Req_dec_T (m1 + m2) 0); [contradiction|].
    assert (Hneg : 1 - e ^ 2 <= 0) by (destruct He; nra).
    unfold np_sqrt. destruct (Rle_dec 0 (1 - e ^ 2)) as [H0|]; [|reflexivity].
    unfold fbind, np_div.
    assert (E : 1 - e ^ 2 = 0) by lra. rewrite E, sqrt_0.
    destruct (Req_dec_T 0 0) as [_|H]; [reflexivity|now contradiction H].
Qed.

(** X3. For a fixed geometry the magnitude of [K] grows with the
    eccentricity: it is smallest for the circular orbit. *)
Theorem K_grows_with_eccentricity (m1 m2 n a I e1 e2 : R) :
  m1 + m2 <> 0 -> 0 <= e1 <= e2 -> e2 < 1 ->
  exists k1 k2,
    K m1 m2 n a I e1 = Ok (Some k1)
    /\ K m1 m2 n a I e2 = Ok (Some k2)
    /\ Rabs k1 <= Rabs k2.
Proof.
  intros Hm He1 He2.
  do 2 eexists. split; [apply K_value; [assumption|lra]|].
  split; [apply K_value; [assumption|lra]|].
  set (num := m2 / (m1 + m2) * n * a * sin I).
  assert (Hd2 : 0 < sqrt (1 - e2 ^ 2)) by (apply sqrt_lt_R0; nra).
  assert (Hd12 : sqrt (1 - e2 ^ 2) <= sqrt (1 - e1 ^ 2))
    by (apply sqrt_le_1_alt; nra).
  assert (Hd1 : 0 < sqrt (1 - e1 ^ 2)) by lra.
  unfold Rdiv. rewrite !Rabs_mult.
  apply Rmult_le_compat_l; [apply Rabs_pos|].
  rewrite !Rabs_inv, !(Rabs_pos_eq (sqrt _)) by lra.
  apply Rinv_le_contravar; assumption.
Qed.

Lemma K_grows_with_eccentricity_witness :
  exists k1 k2,
    K 1 1 1 1 (PI / 2) 0 = Ok (Some k1)
    /\ K 1 1 1 1 (PI / 2) (1 / 2) = Ok (Some k2)
    /\ Rabs k1 <= Rabs k2.
Proof.
  apply (K_grows_with_eccentricity 1 1 1 1 (PI / 2) 0 (1 / 2)); lra.
Defined.

(** ** The velocity model [vr] *)

Lemma cos_period_Z (x : R) (k : Z) : cos (x + 2 * IZR k * PI) = cos x.
Proof.
  destruct (Z.le_gt_cases 0 k) as [Hk|Hk].
  - rewrite <- (Z2Nat.id k Hk), <- INR_IZR_INZ. apply cos_period.
  - rewrite <- (cos_period (x + 2 * IZR k * PI) (Z.to_nat (- k))).
    f_equal. rewrite INR_IZR_INZ, Z2Nat.id by lia. rewrite opp_IZR. lra.
Qed.

Lemma sin_period_Z (x : R) (k : Z) : sin (x + 2 * IZR k * PI) = sin x.
Proof.
  destruct (Z.le_gt_cases 0 k) as [Hk|Hk].
  - rewrite <- (Z2Nat.id k Hk), <- INR_IZR_INZ. apply sin_period.
  - rewrite <- (sin_period (x + 2 * IZR k * PI) (Z.to_nat (- k))).
    f_equal. rewrite INR_IZR_INZ, Z2Nat.id by lia. rewrite opp_IZR. lra.
Qed.

Lemma vr_interval (VZ K w f e : R) :
  VZ - Rabs K * (1 + Rabs e) <= vr VZ K w f e <= VZ + Rabs K * (1 + Rabs e).
Proof.
  unfold vr.
  pose proof (COS_bound (w * (PI / 180) + f)) as H1.
  pose proof (COS_bound (w * (PI / 180))) as H2.
  set (c1 := cos (w * (PI / 180) + f)) in *.
  set (c2 := cos (w * (PI / 180))) in *.
  assert (He : - Rabs e <= e * c2 <= Rabs e).
  { unfold Rabs. destruct (Rcase_abs e); split; nra. }
  assert (Hs : - (1 + Rabs e) <= c1 + e * c2 <= 1 + Rabs e) by lra.
  assert (HK : - (Rabs K * (1 + Rabs e)) <= K * (c1 + e * c2)
               <= Rabs K * (1 + Rabs e)).
  { pose proof (Rabs_pos e).
    unfold Rabs at 1 3. destruct (Rcase_abs K); split; nra. }
  lra.
Qed.

(** X4. The radial velocity stays within [|K|*(1+|e|)] of the systemic
    velocity, whatever the angles are, and reaches that distance at
    periastron ([f = 0]) when the periapse points to the observer
    ([w = 0]) and [e >= 0]. *)
Theorem vr_bounded (VZ K w f e : R) :
  Rabs (vr VZ K w f e - VZ) <= Rabs K * (1 + Rabs e)
  /\ (0 <= e -> Rabs (vr VZ K 0 0 e - VZ) = Rabs K * (1 + Rabs e)).
Proof.
  split.
  - apply Rabs_le. pose proof (vr_interval VZ K w f e). lra.
  - intros He. unfold vr.
    replace (0 * (PI / 180) + 0) with 0 by lra.
    replace (0 * (PI / 180)) with 0 by lra.
    rewrite cos_0, (Rabs_pos_eq e) by assumption.
    replace (VZ + K * (1 + e * 1) - VZ) with (K * (1 + e)) by lra.
    rewrite Rabs_mult, (Rabs_pos_eq (1 + e)) by lra. reflexivity.
Qed.

(** X5. The radial velocity does not change when the true anomaly moves
    by whole turns, nor when the argument of periapse moves by multiples of
    360 degrees. *)
Theorem vr_periodic (VZ K w f e : R) (k : Z) :
  vr VZ K w (f + 2 * IZR k * PI) e = vr VZ K w f e
  /\ vr VZ K (w + 360 * IZR k) f e = vr VZ K w f e.
Proof.
  unfold vr. split.
  - replace (w * (PI / 180) + (f + 2 * IZR k * PI))
      with (w * (PI / 180) + f + 2 * IZR k * PI) by lra.
    now rewrite cos_period_Z.
  - replace ((w + 360 * IZR k) * (PI / 180) + f)
      with (w * (PI / 180) + f + 2 * IZR k * PI) by lra.
    replace ((w + 360 * IZR k) * (PI / 180))
      with (w * (PI / 180) + 2 * IZR k * PI) by lra.
    now rewrite !cos_period_Z.
Qed.

(** ** Kepler's equation *)

Lemma Rabs_bound_inv (x b : R) : Rabs x <= b -> - b <= x <= b.
Proof. unfold Rabs. destruct (Rcase_abs x); lra. Qed.

Lemma sin_abs_le (x : R) : Rabs (sin x) <= Rabs x.
Proof.
  assert (Hpos : forall y, 0 < y -> Rabs (sin y) <= y).
  { intros y Hy. destruct (Rle_dec y PI) as [Hle|Hgt].
    - rewrite Rabs_pos_eq by (apply sin_ge_0; lra).
      pose proof (sin_lt_x y Hy). lra.
    - pose proof PI2_1. apply Rabs_le. pose proof (SIN_bound y). lra. }
  destruct (Rtotal_order x 0) as [Hx|[->|Hx]].
  - rewrite <- (Rabs_Ropp (sin x)), <- sin_neg, <- (Rabs_Ropp x).
    rewrite (Rabs_pos_eq (- x)) by lra. apply Hpos. lra.
  - rewrite sin_0, Rabs_R0. lra.
  - rewrite (Rabs_pos_eq x) by lra. now apply Hpos.
Qed.

Lemma sin_lipschitz (p q : R) : Rabs (sin p - sin q) <= Rabs (p - q).
Proof.
  rewrite form4, !Rabs_mult.
  assert (H1 : Rabs (cos ((p + q) / 2)) <= 1).
  { apply Rabs_le. pose proof (COS_bound ((p + q) / 2)). lra. }
  pose proof (sin_abs_le ((p - q) / 2)) as H2.
  pose proof (Rabs_pos (sin ((p - q) / 2))) as H3.
  pose proof (Rabs_pos (cos ((p + q) / 2))) as H4.
  rewrite (Rabs_pos_eq 2) by lra.
  assert (H5 : Rabs ((p - q) / 2) = Rabs (p - q) / 2).
  { unfold Rdiv. rewrite Rabs_mult, (Rabs_pos_eq (/ 2)) by lra. reflexivity. }
  assert (Rabs (cos ((p + q) / 2)) * Rabs (sin ((p - q) / 2))
          <= 1 * Rabs (sin ((p - q) / 2)))
    by (apply Rmult_le_compat_r; lra).
  lra.
Qed.

Lemma kepler_increasing_lemma (e M E1 E2 : R) :
  -1 < e < 1 -> E1 < E2 -> kepler E1 e M < kepler E2 e M.
Proof.
  intros He HE. unfold kepler.
  pose proof (sin_lipschitz E2 E1) as HL.
  rewrite (Rabs_pos_eq (E2 - E1)) in HL by lra.
  apply Rabs_bound_inv in HL.
  assert (Hprod : - (E2 - E1) < e * (sin E2 - sin E1) < E2 - E1).
  { destruct (Rle_dec 0 e); split; nra. }
  lra.
Qed.

(** X6. For an eccentricity of magnitude below one, [kepler] is strictly
    increasing in the eccentric anomaly, so Kepler's equation has at most
    one root for a given mean anomaly. *)
Theorem kepler_increasing (e M E1 E2 : R) :
  -1 < e < 1 ->
  (E1 < E2 -> kepler E1 e M < kepler E2 e M)
  /\ (kepler E1 e M = 0 -> kepler E2 e M = 0 -> E1 = E2).
Proof.
  intros He. split; [now apply kepler_increasing_lemma|].
  intros H1 H2. destruct (Rtotal_order E1 E2) as [Hlt|[Heq|Hgt]].
  - pose proof (kepler_increasing_lemma e M E1 E2 He Hlt). lra.
  - assumption.
  - pose proof (kepler_increasing_lemma e M E2 E1 He Hgt). lra.
Qed.

Lemma kepler_increasing_witness :
  (0 < 1 -> kepler 0 (1 / 2) 0 < kepler 1 (1 / 2) 0)
  /\ (kepler 0 (1 / 2) 0 = 0 -> kepler 1 (1 / 2) 0 = 0 -> 0 = 1).
Proof.
  apply (kepler_increasing (1 / 2) 0 0 1). lra.
Defined.

Lemma kepler_continuous (e M : R) : continuity (fun E => kepler E e M).
Proof.
  unfold kepler.
  apply continuity_minus; [|apply continuity_const; intros x y; reflexivity].
  apply continuity_minus; [apply derivable_continuous, derivable_id|].
  apply continuity_scal, continuity_sin.
Qed.

(** X7. For an eccentricity of magnitude below one Kepler's equation has
    a root for every mean anomaly, and the root lies within [|e|] of the
    mean anomaly. *)
Theorem kepler_root_exists (e M : R) :
  -1 < e < 1 ->
  exists E, kepler E e M = 0 /\ M - Rabs e <= E <= M + Rabs e.
Proof.
  intros He.
  assert (Hlo : kepler (M - 2) e M < 0).
  { unfold kepler. pose proof (SIN_bound (M - 2)). nra. }
  assert (Hhi : 0 < kepler (M + 2) e M).
  { unfold kepler. pose proof (SIN_bound (M + 2)). nra. }
  destruct (IVT (fun E => kepler E e M) (M - 2) (M + 2)
              (kepler_continuous e M) ltac:(lra) Hlo Hhi) as (E & _ & HE).
  exists E. split; [assumption|].
  unfold kepler in HE.
  assert (Hs : Rabs (e * sin E) <= Rabs e).
  { rewrite Rabs_mult. pose proof (Rabs_pos e).
    assert (Rabs (sin E) <= 1)
      by (apply Rabs_le; pose proof (SIN_bound E); lra).
    assert (Rabs e * Rabs (sin E) <= Rabs e * 1)
      by (apply Rmult_le_compat_l; lra).
    lra. }
  apply Rabs_bound_inv in Hs. lra.
Qed.

Lemma kepler_root_exists_witness :
  exists E, kepler E (1 / 2) 1 = 0 /\ 1 - Rabs (1 / 2) <= E <= 1 + Rabs (1 / 2).
Proof.
  apply (kepler_root_exists (1 / 2) 1). lra.
Defined.

(** X8. The root follows the half of the period the mean anomaly is in:
    a mean anomaly of the first half-period has its eccentric anomaly in
    [0, pi], one of the second half-period in [pi, 2*pi]; at the ends and
    at the middle of the period the root is the mean anomaly itself. *)
Theorem kepler_root_half_period (e M E : R) :
  -1 < e < 1 -> kepler E e M = 0 ->
  (0 <= M <= PI -> 0 <= E <= PI)
  /\ (PI <= M <= 2 * PI -> PI <= E <= 2 * PI)
  /\ (M = 0 \/ M = PI \/ M = 2 * PI -> E = M).
Proof.
  intros He HE.
  assert (H0 : kepler 0 e M = - M) by (unfold kepler; rewrite sin_0; lra).
  assert (H1 : kepler PI e M = PI - M) by (unfold kepler; rewrite sin_PI; lra).
  assert (H2 : kepler (2 * PI) e M = 2 * PI - M)
    by (unfold kepler; rewrite sin_2PI; lra).
  assert (Hmono : forall a b, a < b -> kepler a e M < kepler b e M)
    by (intros a b; now apply kepler_increasing_lemma).
  assert (Hfirst : 0 <= M <= PI -> 0 <= E <= PI).
  { intros HM. split.
    - destruct (Rle_dec 0 E); [assumption|].
      pose proof (Hmono E 0 ltac:(lra)). lra.
    - destruct (Rle_dec E PI); [assumption|].
      pose proof (Hmono PI E ltac:(lra)). lra. }
  assert (Hsecond : PI <= M <= 2 * PI -> PI <= E <= 2 * PI).
  { intros HM. split.
    - destruct (Rle_dec PI E); [assumption|].
      pose proof (Hmono E PI ltac:(lra)). lra.
    - destruct (Rle_dec E (2 * PI)); [assumption|].
      pose proof (Hmono (2 * PI) E ltac:(lra)). lra. }
  split; [assumption|]. split; [assumption|].
  pose proof PI_RGT_0.
  intros [ -> | [ -> | -> ] ].
  - destruct (Rtotal_order E 0) as [Hlt|[Heq|Hgt]]; [|assumption|].
    + pose proof (Hmono E 0 Hlt). lra.
    + pose proof (Hmono 0 E Hgt). lra.
  - destruct (Rtotal_order E PI) as [Hlt|[Heq|Hgt]]; [|assumption|].
    + pose proof (Hmono E PI Hlt). lra.
    + pose proof (Hmono PI E Hgt). lra.
  - destruct (Rtotal_order E (2 * PI)) as [Hlt|[Heq|Hgt]]; [|assumption|].
    + pose proof (Hmono E (2 * PI) Hlt). lra.
    + pose proof (Hmono (2 * PI) E Hgt). lra.
Qed.

Lemma kepler_root_half_period_witness :
  (0 <= PI <= PI -> 0 <= PI <= PI)
  /\ (PI <= PI <= 2 * PI -> PI <= PI <= 2 * PI)
  /\ (PI = 0 \/ PI = PI \/ PI = 2 * PI -> PI = PI).
Proof.
  apply (kepler_root_half_period (1 / 2) PI PI).
  - lra.
  - unfold kepler. rewrite sin_PI. lra.
Defined.

(** ** The geometry of the orbit *)



Lemma true_anomaly_at_scale (a e q : R) :
  a <> 0 -> true_anomaly_at a e (a * q) = true_anomaly_at 1 e (1 * q).
Proof.
  intros Ha. unfold true_anomaly_at, np_div.
  destruct (Req_dec_T (a * q) 0) as [H1|H1];
    destruct (Req_dec_T (1 * q) 0) as [H2|H2]; cbn [fbind].
  - reflexivity.
  - contradiction H2. apply Rmult_integral in H1. destruct H1; lra.
  - contradiction H1. rewrite Rmult_1_l in H2. subst q. lra.
  - replace (a * (1 - e ^ 2) / (a * q)) with (1 * (1 - e ^ 2) / (1 * q));
      [reflexivity|].
    assert (q <> 0) by lra. field. split; assumption.
Qed.

(** X10. The semi-major axis does not matter: for every [a <> 0] the
    entry point returns what it returns for [a = 1]. *)
Theorem semi_major_axis_irrelevant (newton : (R -> R) -> R -> result R)
        (K T t0 w e a VZ start end_ : R) (NT N : nat) :
  a <> 0 ->
  get_RVs newton K T t0 w e a VZ start end_ NT N
  = get_RVs newton K T t0 w e 1 VZ start end_ NT N.
Proof.
  intros Ha. unfold get_RVs, one_period.
  destruct (mean_anomaly T t0 (linspace t0 (t0 + T) NT)) as [M|err];
    [|reflexivity].
  cbn [bind].
  destruct (eccentric_anomaly newton e M) as [E|err]; [|reflexivity].
  cbn [bind].
  replace (true_anomaly a e (radius a e E))
    with (true_anomaly 1 e (radius 1 e E)); [reflexivity|].
  unfold true_anomaly, radius. rewrite !map_map. apply map_ext.
  intros Ek. symmetry. now apply true_anomaly_at_scale.
Qed.

Lemma semi_major_axis_irrelevant_witness :
  get_RVs one_step_solver 1 2 0 0 (1 / 2) 7 0 0 1 3 2
  = get_RVs one_step_solver 1 2 0 0 (1 / 2) 1 0 0 1 3 2.
Proof.
  apply (semi_major_axis_irrelevant one_step_solver 1 2 0 0 (1 / 2) 7 0 0 1 3 2).
  lra.
Defined.

(** ** What the resampler returns *)

Lemma one_period_inv (newton : (R -> R) -> R -> result R)
      (K T t0 w e a VZ : R) (NT : nat) (t : list R) (RV : list float64) :
  one_period newton K T t0 w e a VZ NT = Ok (t, RV) ->
  T <> 0
  /\ exists E,
       eccentric_anomaly newton e (grid_anomalies T t0 NT) = Ok E
       /\ RV = radial_velocities VZ K w e
                 (shift_second_half NT (true_anomaly a e (radius a e E))).
Proof.
  unfold one_period, mean_anomaly. intros H.
  destruct (Req_dec_T T 0) as [E0|HT]; [discriminate|].
  split; [assumption|]. cbn [bind] in H.
  fold (grid_anomalies T t0 NT) in H.
  destruct (eccentric_anomaly newton e (grid_anomalies T t0 NT)) as [E|];
    [|discriminate].
  cbn [bind] in H. injection H as _ <-. now exists E.
Qed.

Lemma get_RVs_explicit (newton : (R -> R) -> R -> result R)
      (K T t0 w e a VZ start end_ : R) (NT N : nat)
      (t : list R) (RV : list float64) :
  (1 <= NT)%nat ->
  one_period newton K T t0 w e a VZ NT = Ok (t, RV) ->
  get_RVs newton K T t0 w e a VZ start end_ NT N
  = Ok (linspace start end_ N,
        map (fun v => interp_at (periodic_xp t (Rabs T))
                                (periodic_fp t RV (Rabs T))
                                (np_mod v (Rabs T)))
            (linspace start end_ N)).
Proof.
  intros HNT Hone.
  destruct (one_period_inv _ _ _ _ _ _ _ _ _ _ _ Hone) as [HT _].
  destruct (one_period_shape _ _ _ _ _ _ _ _ _ _ _ Hone) as [Ht Hlen].
  unfold get_RVs. rewrite Hone. cbn [bind].
  rewrite interp_unfold; [reflexivity|assumption| |].
  - now rewrite Ht, linspace_length.
  - rewrite Ht, linspace_length. assumption.
Qed.

(** Every value the routine returns is a weighted mean of two reference
    values, with a weight in [0, 1). *)
Lemma interp_at_between (xp : list R) (fp : list float64) (P u : R) :
  0 < P -> (1 <= length xp)%nat -> length fp = length xp -> 0 <= u < P ->
  exists (a b : nat) (lam : R),
    (a < length fp)%nat /\ (b < length fp)%nat /\ 0 <= lam < 1
    /\ interp_at (periodic_xp xp P) (periodic_fp xp fp P) u
       = match nth a fp None, nth b fp None with
         | Some ya, Some yb => Some (ya + lam * (yb - ya))
         | _, _ => None
         end.
Proof.
  intros HP Hne Hlen Hu.
  destruct (periodic_bracket xp fp P HP Hne u Hu)
    as (X0 & X1 & Y0 & Y1 & HS0 & HS1 & Hbr & Hint & _ & _).
  destruct HS0 as (a & m0 & Ha & _ & HY0).
  destruct HS1 as (b & m1 & Hb & _ & HY1).
  exists a, b, ((u - X0) / (X1 - X0)).
  split; [lia|]. split; [lia|]. split.
  - split.
    + apply Rmult_le_pos; [lra|]. apply Rlt_le, Rinv_0_lt_compat. lra.
    + apply (Rmult_lt_reg_r (X1 - X0)); [lra|].
      rewrite quotient_times_step by lra. lra.
  - rewrite Hint, HY0, HY1. unfold lerp.
    destruct (nth a fp None); [|reflexivity].
    destruct (nth b fp None); [|reflexivity].
    f_equal. field. lra.
Qed.

Lemma shift_second_half_all_nan (NT : nat) (f : list float64) :
  Forall (fun fk => fk = None) f ->
  Forall (fun fk => fk = None) (shift_second_half NT f).
Proof.
  intros H. unfold shift_second_half.
  set (s := slice_start _ _). clearbody s.
  rewrite <- (firstn_skipn s f) in H at 1.
  apply Forall_app in H. destruct H as [Hfirst Hrest].
  apply Forall_app. split; [assumption|].
  apply Forall_map. revert Hrest. apply Forall_impl.
  intros fk ->. reflexivity.
Qed.

Lemma true_anomaly_at_zero_axis (e q : R) : true_anomaly_at 0 e (0 * q) = None.
Proof.
  unfold true_anomaly_at, np_div.
  destruct (Req_dec_T (0 * q) 0) as [_|H]; [reflexivity|].
  contradiction H. lra.
Qed.

Lemma nth_all_nan (l : list float64) (i : nat) :
  Forall (fun y => y = None) l -> nth i l None = None.
Proof.
  intros H. destruct (nth_in_or_default i l None) as [Hin|Hd]; [|assumption].
  rewrite Forall_forall in H. now apply H.
Qed.

(** X11. A circular orbit ([e = 0]) or a zero semi-major axis ([a = 0])
    raises nothing: when the solver returns for every sample, the entry
    point returns [N] times and [N] velocities that are all [nan]. *)
Theorem degenerate_orbit_returns_nan (newton : (R -> R) -> R -> result R)
        (K T t0 w e a VZ start end_ : R) (NT N : nat) :
  T <> 0 -> (1 <= NT)%nat ->
  Forall (converges newton e) (grid_anomalies T t0 NT) ->
  e = 0 \/ a = 0 ->
  exists RVs,
    get_RVs newton K T t0 w e a VZ start end_ NT N
    = Ok (linspace start end_ N, RVs)
    /\ length RVs = N
    /\ Forall (fun y => y = None) RVs.
Proof.
  intros HT HNT Hconv Hdeg.
  destruct (one_period_ok newton K T t0 w e a VZ NT HT Hconv)
    as (RV & Hone & HlenRV).
  destruct (one_period_inv _ _ _ _ _ _ _ _ _ _ _ Hone) as (_ & E & _ & HRV).
  assert (Hnan : Forall (fun y : float64 => y = None) RV).
  { rewrite HRV. unfold radial_velocities. apply Forall_map.
    assert (H : Forall (fun fk : float64 => fk = None)
                  (shift_second_half NT (true_anomaly a e (radius a e E)))).
    { apply shift_second_half_all_nan. unfold true_anomaly, radius.
      rewrite map_map. apply Forall_map, Forall_forall. intros Ek _.
      destruct Hdeg as [-> | ->].
      - apply true_anomaly_at_circular.
      - apply true_anomaly_at_zero_axis. }
    revert H. apply Forall_impl. intros fk ->. reflexivity. }
  eexists. split; [apply (get_RVs_explicit _ _ _ _ _ _ _ _ _ _ _ _ _ _ HNT Hone)|].
  split; [now rewrite length_map, linspace_length|].
  apply Forall_map, Forall_forall. intros v _.
  destruct (interp_at_between (linspace t0 (t0 + T) NT) RV (Rabs T)
              (np_mod v (Rabs T)))
    as (i & j & lam & Hi & Hj & _ & Hval).
  - now apply Rabs_pos_lt.
  - now rewrite linspace_length.
  - now rewrite linspace_length.
  - apply np_mod_range. now apply Rabs_pos_lt.
  - rewrite Hval, (nth_all_nan RV i Hnan). reflexivity.
Qed.

Lemma degenerate_orbit_returns_nan_witness :
  exists RVs,
    get_RVs one_step_solver 1 2 0 0 0 1 0 0 1 3 2 = Ok (linspace 0 1 2, RVs)
    /\ length RVs = 2%nat
    /\ Forall (fun y => y = None) RVs.
Proof.
  apply (degenerate_orbit_returns_nan one_step_solver 1 2 0 0 0 1 0 0 1 3 2).
  - lra.
  - lia.
  - apply one_step_solver_three. lra.
  - left. reflexivity.
Defined.

Lemma radial_velocities_nth (VZ K w e : R) (f : list float64) (i : nat) (y : R) :
  nth i (radial_velocities VZ K w e f) None = Some y ->
  exists fk, y = vr VZ K w fk e.
Proof.
  unfold radial_velocities, float64 in *. intros H.
  destruct (Nat.lt_ge_cases i (length f)) as [Hi|Hi].
  - rewrite (nth_map_in (option_map (fun fk => vr VZ K w fk e)) f None None)
      in H by assumption.
    destruct (nth i f None) as [fk|]; simpl in H; [|discriminate].
    injection H as <-. now exists fk.
  - rewrite nth_overflow in H by (now rewrite length_map). discriminate.
Qed.

(** X12. Every velocity the entry point returns that is a number lies
    within [|K|*(1+|e|)] of the systemic velocity [VZ]. *)
Theorem resampled_velocities_bounded (newton : (R -> R) -> R -> result R)
        (K T t0 w e a VZ start end_ : R) (NT N : nat) :
  T <> 0 -> (1 <= NT)%nat ->
  Forall (converges newton e) (grid_anomalies T t0 NT) ->
  exists RVs,
    get_RVs newton K T t0 w e a VZ start end_ NT N
    = Ok (linspace start end_ N, RVs)
    /\ forall i y, nth i RVs None = Some y ->
         Rabs (y - VZ) <= Rabs K * (1 + Rabs e).
Proof.
  intros HT HNT Hconv.
  destruct (one_period_ok newton K T t0 w e a VZ NT HT Hconv)
    as (RV & Hone & HlenRV).
  destruct (one_period_inv _ _ _ _ _ _ _ _ _ _ _ Hone) as (_ & E & _ & HRV).
  eexists. split; [apply (get_RVs_explicit _ _ _ _ _ _ _ _ _ _ _ _ _ _ HNT Hone)|].
  intros i y Hy.
  destruct (Nat.lt_ge_cases i N) as [Hi|Hi];
    [|rewrite nth_overflow in Hy
        by (now rewrite length_map, linspace_length); discriminate].
  rewrite nth_map_float in Hy by (now rewrite linspace_length).
  destruct (interp_at_between (linspace t0 (t0 + T) NT) RV (Rabs T)
              (np_mod (nth i (linspace start end_ N) 0) (Rabs T)))
    as (p & q & lam & Hp & Hq & Hlam & Hval).
  - now apply Rabs_pos_lt.
  - now rewrite linspace_length.
  - now rewrite linspace_length.
  - apply np_mod_range. now apply Rabs_pos_lt.
  - rewrite Hval in Hy.
    destruct (nth p RV None) as [yp|] eqn:Hyp; [|discriminate].
    destruct (nth q RV None) as [yq|] eqn:Hyq; [|discriminate].
    injection Hy as <-.
    rewrite HRV in Hyp, Hyq.
    destruct (radial_velocities_nth _ _ _ _ _ _ _ Hyp) as (fp & ->).
    destruct (radial_velocities_nth _ _ _ _ _ _ _ Hyq) as (fq & ->).
    pose proof (vr_interval VZ K w fp e) as Bp.
    pose proof (vr_interval VZ K w fq e) as Bq.
    apply Rabs_le.
    set (B := Rabs K * (1 + Rabs e)) in *.
    set (vp := vr VZ K w fp e) in *. set (vq := vr VZ K w fq e) in *.
    split; nra.
Qed.

Lemma resampled_velocities_bounded_witness :
  exists RVs,
    get_RVs one_step_solver 1 2 0 0 (1 / 2) 1 0 0 1 3 2
    = Ok (linspace 0 1 2, RVs)
    /\ forall i y, nth i RVs None = Some y ->
         Rabs (y - 0) <= Rabs 1 * (1 + Rabs (1 / 2)).
Proof.
  apply (resampled_velocities_bounded one_step_solver 1 2 0 0 (1 / 2) 1 0 0 1 3 2).
  - lra.
  - lia.
  - apply one_step_solver_three. lra.
Defined.

(** ** The grid of one period *)

(** X13. The mean anomalies of the one-period grid are [NT] evenly
    spaced values from [0] to [2*pi], whatever the (non-zero) period and
    the epoch are. *)
Theorem mean_anomaly_grid (T t0 : R) (NT : nat) :
  T <> 0 -> grid_anomalies T t0 NT = linspace 0 (2 * PI) NT.
Proof.
  intros HT. apply (nth_ext _ _ 0 0).
  - now rewrite grid_anomalies_length, linspace_length.
  - intros i Hi. rewrite grid_anomalies_length in Hi.
    unfold grid_anomalies.
    rewrite (nth_map_in _ _ 0 0) by (now rewrite linspace_length).
    rewrite !linspace_nth by assumption.
    unfold Rdiv. set (Q := / INR (NT - 1)). field. assumption.
Qed.

Lemma mean_anomaly_grid_witness :
  grid_anomalies 359.51 3998.1 1000 = linspace 0 (2 * PI) 1000.
Proof.
  apply (mean_anomaly_grid 359.51 3998.1 1000). lra.
Defined.

Lemma grid_anomalies_nth (T t0 : R) (NT i : nat) :
  T <> 0 -> (i < NT)%nat ->
  nth i (grid_anomalies T t0 NT) 0 = INR i * (2 * PI / INR (NT - 1)).
Proof.
  intros HT Hi. unfold grid_anomalies.
  rewrite (nth_map_in _ _ 0 0) by (now rewrite linspace_length).
  rewrite linspace_nth by assumption.
  unfold Rdiv. set (Q := / INR (NT - 1)). field. assumption.
Qed.

(** X14. For an odd number of samples ([NT >= 3]) the shift follows the
    halves of the period: a sample is left unchanged when its mean anomaly
    is below [pi] and reflected otherwise. *)
Theorem odd_grid_split (T t0 : R) (NT i : nat) (f : list float64) :
  T <> 0 -> Nat.Odd NT -> (3 <= NT)%nat -> length f = NT -> (i < NT)%nat ->
  nth i (shift_second_half NT f) None
  = if Rlt_dec (nth i (grid_anomalies T t0 NT) 0) PI
    then nth i f None
    else option_map reflect (nth i f None).
Proof.
  intros HT [m Hm] HNT Hlen Hi.
  rewrite shift_second_half_nth by assumption.
  rewrite grid_anomalies_nth by assumption.
  assert (Hmid : ((NT - 1) / 2 = m)%nat).
  { rewrite Hm. replace (2 * m + 1 - 1)%nat with (m * 2)%nat by lia.
    apply Nat.div_mul. lia. }
  assert (Hm1 : (1 <= m)%nat) by lia.
  assert (HINR : INR (NT - 1) = 2 * INR m).
  { rewrite Hm. replace (2 * m + 1 - 1)%nat with (2 * m)%nat by lia.
    rewrite mult_INR. simpl. lra. }
  assert (Hmpos : 0 < INR m) by (apply lt_0_INR; lia).
  assert (HM : INR i * (2 * PI / INR (NT - 1)) = INR i / INR m * PI).
  { rewrite HINR. field. lra. }
  rewrite Hmid, HM. pose proof PI_RGT_0 as Hpi.
  destruct (Nat.ltb_spec i m) as [Hlt|Hge];
    destruct (Rlt_dec (INR i / INR m * PI) PI) as [HltM|HgeM];
    try reflexivity; exfalso.
  - apply HgeM. apply lt_INR in Hlt.
    assert (INR i / INR m < 1).
    { apply (Rmult_lt_reg_r (INR m)); [assumption|].
      rewrite quotient_times_step by assumption. lra. }
    nra.
  - apply le_INR in Hge.
    assert (1 <= INR i / INR m).
    { apply (Rmult_le_reg_r (INR m)); [assumption|].
      rewrite quotient_times_step by assumption. lra. }
    nra.
Qed.

Lemma odd_grid_split_witness :
  nth 1 (shift_second_half 5 [Some 0; Some 1; Some 2; Some 1; Some 0]) None
  = if Rlt_dec (nth 1 (grid_anomalies 2 0 5) 0) PI
    then nth 1 [Some 0; Some 1; Some 2; Some 1; Some 0] None
    else option_map reflect
           (nth 1 [Some 0; Some 1; Some 2; Some 1; Some 0] None).
Proof.
  apply (odd_grid_split 2 0 5 1 [Some 0; Some 1; Some 2; Some 1; Some 0]).
  - lra.
  - exists 2%nat. reflexivity.
  - lia.
  - reflexivity.
  - lia.
Defined.

(** X15. For an even number of samples the slice starts one sample
    early: the sample of index [NT/2 - 1] has a mean anomaly below [pi],
    in the first half of the period, and is reflected all the same. *)
Theorem even_grid_split (T t0 : R) (NT : nat) (f : list float64) :
  T <> 0 -> Nat.Even NT -> (2 <= NT)%nat -> length f = NT ->
  let i := (NT / 2 - 1)%nat in
  (i < NT)%nat
  /\ nth i (grid_anomalies T t0 NT) 0 < PI
  /\ nth i (shift_second_half NT f) None = option_map reflect (nth i f None).
Proof.
  intros HT [m Hm] HNT Hlen i.
  assert (Hm1 : (1 <= m)%nat) by lia.
  assert (Hi : i = (m - 1)%nat).
  { unfold i. rewrite Hm, (Nat.mul_comm 2 m), Nat.div_mul by lia.
    reflexivity. }
  assert (Hmid : ((NT - 1) / 2 = m - 1)%nat).
  { rewrite Hm. replace (2 * m - 1)%nat with (1 + (m - 1) * 2)%nat by lia.
    rewrite Nat.div_add by lia. reflexivity. }
  assert (HiNT : (i < NT)%nat) by lia.
  split; [assumption|]. split.
  - rewrite grid_anomalies_nth by assumption.
    assert (HINR : INR (NT - 1) = 2 * INR i + 1).
    { replace (NT - 1)%nat with (2 * i + 1)%nat by lia.
      rewrite plus_INR, mult_INR. simpl. lra. }
    rewrite HINR. pose proof PI_RGT_0 as Hpi.
    assert (Hipos : 0 <= INR i) by apply pos_INR.
    replace (INR i * (2 * PI / (2 * INR i + 1)))
      with (2 * INR i / (2 * INR i + 1) * PI) by (field; lra).
    assert (2 * INR i / (2 * INR i + 1) < 1).
    { apply (Rmult_lt_reg_r (2 * INR i + 1)); [lra|].
      rewrite quotient_times_step by lra. lra. }
    nra.
  - rewrite shift_second_half_nth by assumption. rewrite Hmid, Hi.
    destruct (Nat.ltb_spec (m - 1) (m - 1)); [lia|reflexivity].
Qed.

Lemma even_grid_split_witness :
  let i := (4 / 2 - 1)%nat in
  (i < 4)%nat
  /\ nth i (grid_anomalies 2 0 4) 0 < PI
  /\ nth i (shift_second_half 4 [Some 0; Some 1; Some 1; Some 0]) None
     = option_map reflect (nth i [Some 0; Some 1; Some 1; Some 0] None).
Proof.
  apply (even_grid_split 2 0 4 [Some 0; Some 1; Some 1; Some 0]).
  - lra.
  - exists 2%nat. reflexivity.
  - lia.
  - reflexivity.
Defined.

(** ** A solver that returns roots *)

Lemma comprehension_nth {A B : Type} (body : A -> result B) (d : A) (d' : B) :
  forall l bs i,
    comprehension body l = Ok bs -> (i < length l)%nat ->
    body (nth i l d) = Ok (nth i bs d').
Proof.
  induction l as [|x l IH]; simpl; intros bs i H Hi; [lia|].
  destruct (body x) as [b|] eqn:Hb; simpl in H; [|discriminate].
  destruct (comprehension body l) as [bs'|]; simpl in H; [|discriminate].
  injection H as <-. destruct i as [|i]; [assumption|].
  simpl. apply IH; [reflexivity|lia].
Qed.

Lemma kepler_root_at_turn (e M E : R) :
  -1 < e < 1 -> sin M = 0 -> kepler E e M = 0 -> E = M.
Proof.
  intros He HM HE.
  assert (H0 : kepler M e M = 0) by (unfold kepler; rewrite HM; lra).
  destruct (Rtotal_order E M) as [Hlt|[Heq|Hgt]]; [|assumption|].
  - pose proof (kepler_increasing_lemma e M E M He Hlt). lra.
  - pose proof (kepler_increasing_lemma e M M E He Hgt). lra.
Qed.

Lemma true_anomaly_at_periastron (a e E : R) :
  a <> 0 -> -1 < e < 1 -> e <> 0 -> cos E = 1 ->
  true_anomaly_at a e (a * (1 - e * cos E)) = Some 0.
Proof.
  intros Ha He He0 Hc. rewrite Hc, <- acos_1.
  apply true_anomaly_at_value; try assumption; try lra.
  - apply Rmult_integral_contrapositive. split; lra.
  - field. repeat split; lra.
Qed.

(** With a sound solver the two end samples carry the periastron
    velocity. *)
Lemma one_period_ends (newton : (R -> R) -> R -> result R)
        (K T t0 w e a VZ : R) (NT : nat) (t : list R) (RV : list float64) :
  a <> 0 -> -1 < e < 1 -> e <> 0 -> (2 <= NT)%nat ->
  (forall Mk Ek, newton (fun E => kepler E e Mk) Mk = Ok Ek ->
                 kepler Ek e Mk = 0) ->
  one_period newton K T t0 w e a VZ NT = Ok (t, RV) ->
  nth 0 RV None = Some (VZ + K * ((1 + e) * cos (w * PI / 180)))
  /\ nth (NT - 1) RV None = Some (VZ + K * ((1 + e) * cos (w * PI / 180))).
Proof.
  intros Ha He He0 HNT Hsound Hone.
  destruct (one_period_inv _ _ _ _ _ _ _ _ _ _ _ Hone) as (HT & E & HE & HRV).
  unfold eccentric_anomaly in HE.
  assert (HlenE : length E = NT).
  { rewrite (comprehension_length _ _ _ HE). apply grid_anomalies_length. }
  (* the eccentric anomalies at the two ends *)
  assert (HE0 : nth 0 E 0 = 0).
  { pose proof (comprehension_nth _ 0 0 _ _ 0%nat HE
                  ltac:(rewrite grid_anomalies_length; lia)) as H.
    cbv beta in H. apply Hsound in H.
    rewrite grid_anomalies_nth in H by (assumption || lia).
    simpl INR in H. rewrite Rmult_0_l in H.
    apply (kepler_root_at_turn e 0); [assumption|apply sin_0|assumption]. }
  assert (HE1 : nth (NT - 1) E 0 = 2 * PI).
  { pose proof (comprehension_nth _ 0 0 _ _ (NT - 1)%nat HE
                  ltac:(rewrite grid_anomalies_length; lia)) as H.
    cbv beta in H. apply Hsound in H.
    rewrite grid_anomalies_nth in H by (assumption || lia).
    assert (HM : INR (NT - 1) * (2 * PI / INR (NT - 1)) = 2 * PI).
    { assert (INR (NT - 1) <> 0) by (apply not_0_INR; lia). field. assumption. }
    rewrite HM in H.
    apply (kepler_root_at_turn e (2 * PI)); [assumption|apply sin_2PI|assumption]. }
  (* their true anomalies *)
  set (f := true_anomaly a e (radius a e E)) in *.
  assert (Hlenf : length f = NT).
  { unfold f, radius. now rewrite true_anomaly_length, length_map. }
  assert (Hf : forall i, (i < NT)%nat -> cos (nth i E 0) = 1 ->
                         nth i f None = Some 0).
  { intros i Hi Hc. unfold f, true_anomaly, radius. rewrite map_map.
    rewrite (nth_map_in (fun Ek => true_anomaly_at a e (a * (1 - e * cos Ek)))
               E None 0) by lia.
    now apply true_anomaly_at_periastron. }
  assert (Hf0 : nth 0 f None = Some 0).
  { apply Hf; [lia|]. rewrite HE0. apply cos_0. }
  assert (Hf1 : nth (NT - 1) f None = Some 0).
  { apply Hf; [lia|]. rewrite HE1. apply cos_2PI. }
  (* the velocities *)
  assert (HRVnth : forall i, (i < NT)%nat ->
            nth i RV None
            = option_map (fun fk => vr VZ K w fk e)
                (nth i (shift_second_half NT f) None)).
  { intros i Hi. rewrite HRV. unfold radial_velocities.
    apply (nth_map_in (option_map (fun fk => vr VZ K w fk e))).
    rewrite shift_second_half_length. lia. }
  assert (Hv0 : vr VZ K w 0 e = VZ + K * ((1 + e) * cos (w * PI / 180))).
  { unfold vr. replace (w * (PI / 180) + 0) with (w * PI / 180) by lra.
    replace (w * (PI / 180)) with (w * PI / 180) by lra. lra. }
  assert (Hv1 : vr VZ K w (reflect 0) e = vr VZ K w 0 e).
  { unfold vr, reflect.
    replace (w * (PI / 180) + (0 + 2 * (PI - 0)))
      with (w * (PI / 180) + 0 + 2 * IZR 1 * PI) by lra.
    now rewrite cos_period_Z. }
  assert (Hfirst : nth 0 RV None
                   = Some (VZ + K * ((1 + e) * cos (w * PI / 180)))).
  { rewrite HRVnth, shift_second_half_nth, Hf0 by lia.
    destruct (0 <? (NT - 1) / 2)%nat; cbn [option_map];
      rewrite ?Hv1, Hv0; reflexivity. }
  split; [assumption|].
  rewrite HRVnth, shift_second_half_nth, Hf1 by lia.
  destruct (Nat.ltb_spec (NT - 1) ((NT - 1) / 2)) as [Hlt|_].
  - pose proof (Nat.Div0.div_le_upper_bound (NT - 1) 2 (NT - 1)). lia.
  - cbn [option_map]. now rewrite Hv1, Hv0.
Qed.


Lemma true_anomaly_at_defined (a e E : R) :
  a <> 0 -> -1 < e < 1 -> e <> 0 ->
  true_anomaly_at a e (a * (1 - e * cos E)) <> None.
Proof.
  intros Ha He He0.
  pose proof (COS_bound E) as Hc.
  assert (Hd : 0 < 1 - e * cos E) by nra.
  rewrite (true_anomaly_at_value a e _ ((cos E - e) / (1 - e * cos E)));
    try assumption.
  - discriminate.
  - apply Rmult_integral_contrapositive. split; lra.
  - field. repeat split; lra.
  - split.
    + apply (Rmult_le_reg_r (1 - e * cos E)); [assumption|].
      rewrite quotient_times_step by assumption. nra.
    + apply (Rmult_le_reg_r (1 - e * cos E)); [assumption|].
      rewrite quotient_times_step by assumption. nra.
Qed.

Lemma all_numbers (l : list float64) :
  Forall (fun y => y <> None) l -> exists rv, l = map Some rv.
Proof.
  induction 1 as [|y l Hy _ (rv & ->)]; [now exists []|].
  destruct y as [v|]; [|congruence]. now exists (v :: rv).
Qed.

(** For a non-circular bound orbit every velocity of the one-period curve
    is a number. *)
Lemma one_period_finite (newton : (R -> R) -> R -> result R)
      (K T t0 w e a VZ : R) (NT : nat) (t : list R) (RV : list float64) :
  a <> 0 -> -1 < e < 1 -> e <> 0 ->
  one_period newton K T t0 w e a VZ NT = Ok (t, RV) ->
  exists rv, RV = map Some rv.
Proof.
  intros Ha He He0 Hone.
  destruct (one_period_inv _ _ _ _ _ _ _ _ _ _ _ Hone) as (_ & E & _ & HRV).
  apply all_numbers. rewrite HRV. unfold radial_velocities.
  apply Forall_map.
  assert (Hf : Forall (fun fk : float64 => fk <> None)
                 (true_anomaly a e (radius a e E))).
  { unfold true_anomaly, radius. rewrite map_map.
    apply Forall_map, Forall_forall. intros Ek _.
    now apply true_anomaly_at_defined. }
  unfold shift_second_half. set (s := slice_start _ _). clearbody s.
  rewrite <- (firstn_skipn s (true_anomaly a e (radius a e E))) in Hf at 1.
  apply Forall_app in Hf. destruct Hf as [Hfirst Hrest].
  apply Forall_app. split.
  - revert Hfirst. apply Forall_impl. intros [fk|] H; [discriminate|congruence].
  - apply Forall_map. revert Hrest. apply Forall_impl.
    intros [fk|] H; [discriminate|congruence].
Qed.


Lemma one_step_solver_sound (e Mk Ek : R) :
  one_step_solver (fun E => kepler E e Mk) Mk = Ok Ek -> kepler Ek e Mk = 0.
Proof.
  unfold one_step_solver.
  destruct (Req_dec_T (kepler Mk e Mk) 0) as [H0|]; [|discriminate].
  intros H. injection H as <-. assumption.
Qed.


(** X17. For a non-circular bound orbit, a positive period and a solver
    that returns a root of Kepler's equation for every sample, running the
    entry point over its own grid ([start = t0], [end = t0+T], [N = NT])
    returns exactly the times and the velocities of the one-period
    curve. *)
Theorem round_trip_with_exact_solver (newton : (R -> R) -> R -> result R)
        (K T t0 w e a VZ : R) (NT : nat) :
  a <> 0 -> -1 < e < 1 -> e <> 0 -> 0 < T -> (2 <= NT)%nat ->
  (forall Mk Ek, newton (fun E => kepler E e Mk) Mk = Ok Ek ->
                 kepler Ek e Mk = 0) ->
  Forall (converges newton e) (grid_anomalies T t0 NT) ->
  exists t RV,
    one_period newton K T t0 w e a VZ NT = Ok (t, RV)
    /\ get_RVs newton K T t0 w e a VZ t0 (t0 + T) NT NT = Ok (t, RV).
Proof.
  intros Ha He He0 HT HNT Hsound Hconv.
  destruct (one_period_ok newton K T t0 w e a VZ NT ltac:(lra) Hconv)
    as (RV & Hone & HlenRV).
  destruct (one_period_finite _ _ _ _ _ _ _ _ _ _ _ Ha He He0 Hone) as (rv & Hrv).
  destruct (one_period_ends _ _ _ _ _ _ _ _ _ _ _ Ha He He0 HNT Hsound Hone)
    as [H0 H1].
  exists (linspace t0 (t0 + T) NT), RV. split; [assumption|].
  subst RV. rewrite length_map in HlenRV.
  rewrite (nth_map_in Some rv None 0) in H0 by lia.
  rewrite (nth_map_in Some rv None 0) in H1 by lia.
  injection H0 as H0. injection H1 as H1.
  destruct (get_RVs_resampled newton K T t0 w e a VZ t0 (t0 + T) NT NT
              _ rv HT HNT Hone) as (_ & _ & Hget).
  rewrite Hget. do 2 f_equal.
  apply (nth_ext _ _ None None).
  - now rewrite !length_map, linspace_length.
  - intros i Hi. rewrite length_map, linspace_length in Hi.
    rewrite nth_map_float by (now rewrite linspace_length).
    destruct (grid_interp_at_sample T t0 NT rv HT HNT HlenRV i Hi)
      as (b & Hval & Hb).
    rewrite Hval, (nth_map_in Some rv None 0) by lia. f_equal.
    destruct Hb as [ -> | [ [ -> -> ] | [ -> -> ] ] ]; lra.
Qed.

Lemma round_trip_with_exact_solver_witness :
  exists t RV,
    one_period one_step_solver 1 2 0 0 (1 / 2) 1 0 3 = Ok (t, RV)
    /\ get_RVs one_step_solver 1 2 0 0 (1 / 2) 1 0 0 (0 + 2) 3 3 = Ok (t, RV).
Proof.
  apply (round_trip_with_exact_solver one_step_solver 1 2 0 0 (1 / 2) 1 0 3).
  - lra.
  - lra.
  - lra.
  - lra.
  - lia.
  - apply one_step_solver_sound.
  - apply one_step_solver_three. lra.
Defined.

(** ** The true anomaly over one period *)













